(** * Buildshapeify: a shallow embedding of src/buildshapeify.py

    The script turns NoLimits 2 material files ([.nl2mat]) into template
    variants and writes companion scene-object files ([.nl2sco]).  The
    embedding follows the Python code function by function:
    - [xml.etree.ElementTree] elements live in a heap of mutable nodes
      (addresses are object identities), so that [copy.deepcopy] and the
      in-place [Element.append] of [with_tc_info_from] can be stated;
    - [pathlib.PurePosixPath] is a root and a list of components;
    - [str.replace] and Python dicts (insertion ordered association lists)
      are written out;
    - file-system access goes through a [world] record, and the script runs
      in a state and exception monad whose effects (log records, written
      files) persist when an exception escapes, as in Python. *)

From Stdlib Require Import String Ascii.
From stdpp Require Import base list strings pretty.

Open Scope string_scope.
Open Scope list_scope.
Set Warnings "-register-all".

(** ** XML elements *)

(** An element as [ElementTree] holds it: tag, attributes (in document
    order), text, tail and children. *)
Inductive elem :=
  Elem (tag : string) (attrib : list (string * string)) (text tail : option string)
       (kids : list elem).

Section elem_rect.
  Variable P : elem -> Prop.
  Hypothesis HElem : forall g a t tl ks, Forall P ks -> P (Elem g a t tl ks).
Fixpoint elem_ind' (e : elem) : P e :=
    match e with
    | Elem g a t tl ks =>
        HElem g a t tl ks
          ((fix go (l : list elem) : Forall P l :=
              match l with
              | [] => @List.Forall_nil elem P
              | k :: l' => @List.Forall_cons elem P k l' (elem_ind' k) (go l')
              end) ks)
    end.
End elem_rect.

Definition etag (e : elem) : string := let '(Elem g _ _ _ _) := e in g.
Definition eattrib (e : elem) : list (string * string) := let '(Elem _ a _ _ _) := e in a.
Definition etext (e : elem) : option string := let '(Elem _ _ t _ _) := e in t.
Definition etail (e : elem) : option string := let '(Elem _ _ _ tl _) := e in tl.
Definition ekids (e : elem) : list elem := let '(Elem _ _ _ _ ks) := e in ks.

(** A heap node: the mutable [Element] object at some address. *)
Record node := Node {
  ntag : string; nattrib : list (string * string); ntext : option string;
  ntail : option string; nkids : list nat }.

Abbreviation store := (list node).

(** Reading the element value rooted at an address.  The fuel bounds the
    depth (Python's recursion limit); a dangling address reads as [None]. *)
Fixpoint read (fuel : nat) (h : store) (a : nat) : option elem :=
  match fuel with
  | O => None
  | S f =>
      match h !! a with
      | None => None
      | Some n => Elem (ntag n) (nattrib n) (ntext n) (ntail n) <$> mapM (read f h) (nkids n)
      end
  end.

(** Allocating fresh nodes for an element value (what [ElementTree.parse]
    and [copy.deepcopy] do): children first, then the node itself, at the
    end of the heap.  The order of allocation is not observable in Python. *)
Fixpoint alloc (h : store) (e : elem) {struct e} : store * nat :=
  match e with
  | Elem g ats t tl ks =>
      let fix alloc_list (h : store) (ks : list elem) : store * list nat :=
        match ks with
        | [] => (h, [])
        | k :: ks' =>
            let '(h1, a) := alloc h k in
            let '(h2, as_) := alloc_list h1 ks' in
            (h2, a :: as_)
        end in
      let '(h', as_) := alloc_list h ks in
      (h' ++ [Node g ats t tl as_], length h')
  end.

Fixpoint alloc_list (h : store) (ks : list elem) : store * list nat :=
  match ks with
  | [] => (h, [])
  | k :: ks' =>
      let '(h1, a) := alloc h k in
      let '(h2, as_) := alloc_list h1 ks' in
      (h2, a :: as_)
  end.

Lemma alloc_Elem h g ats t tl ks :
  alloc h (Elem g ats t tl ks) =
  let '(h', as_) := alloc_list h ks in (h' ++ [Node g ats t tl as_], length h').
Proof. reflexivity. Qed.

(** [Element.append(child)]: the child object itself is appended (no copy). *)
Definition append_child (h : store) (p c : nat) : store :=
  match h !! p with
  | Some n => <[p := Node (ntag n) (nattrib n) (ntext n) (ntail n) (nkids n ++ [c])]> h
  | None => h
  end.

(** ElementPath for a path ['./t1/t2/.../tk'] of child steps: each step
    selects, for every element of the current context in order, its
    children with that tag. *)
Definition tag_is (h : store) (g : string) (c : nat) : bool :=
  match h !! c with
  | Some n => bool_decide (ntag n = g)
  | None => false
  end.

Definition select_child (h : store) (ctx : list nat) (g : string) : list nat :=
  ctx ≫= (fun a => match h !! a with
                   | Some n => filter (fun c => tag_is h g c = true) (nkids n)
                   | None => []
                   end).

(** [root.findall(path)] and [root.find(path)] (the first match). *)
Definition findall (h : store) (a : nat) (path : list string) : list nat :=
  fold_left (select_child h) path [a].

Definition find (h : store) (a : nat) (path : list string) : option nat :=
  head (findall h a path).

(** The same path selection on element values. *)
Definition select_child_v (ctx : list elem) (g : string) : list elem :=
  ctx ≫= (fun e => filter (fun c => etag c = g) (ekids e)).

Definition findall_v (e : elem) (path : list string) : list elem :=
  fold_left select_child_v path [e].

Definition find_v (e : elem) (path : list string) : option elem :=
  head (findall_v e path).

(** ['./material/renderpass/texunit'] *)
Definition texunit_path : list string := ["material"; "renderpass"; "texunit"].

(** ['./material/renderpass/texunit/map'] *)
Definition map_path : list string := texunit_path ++ ["map"].

Definition kids_at (h : store) (a : nat) : list nat :=
  match h !! a with Some n => nkids n | None => [] end.

(** ** Paths ([pathlib.PurePosixPath], Python 3.12) *)

(** A path is its root ([''], ['/'] or ['//']) and its tail of
    components; ['.'] components and empty components are dropped when a
    string is parsed, as pathlib does. *)
Record path := Path { root : string; comps : list string }.

Definition absolute (p : path) : bool := negb (String.eqb (root p) "").

Fixpoint split_slash (s : string) : list string :=
  match s with
  | EmptyString => [""]
  | String c s' =>
      let rest := split_slash s' in
      if Ascii.eqb c "/" then "" :: rest
      else match rest with
           | r :: rs => String c r :: rs
           | [] => [String c ""]
           end
  end.

(** [posixpath.splitroot]: exactly two leading slashes are kept as the
    root ['//'], one or three and more give ['/']. *)
Definition root_of (s : string) : string :=
  if String.prefix "/" s then
    if String.prefix "//" s && negb (String.prefix "///" s) then "//" else "/"
  else "".

Definition parse_path (s : string) : path :=
  Path (root_of s)
       (filter (fun c => c <> "" /\ c <> ".") (split_slash s)).

(** [p / q]: an absolute right operand replaces the left one. *)
Definition div (p q : path) : path :=
  if absolute q then q else Path (root p) (comps p ++ comps q).

Definition div_str (p : path) (s : string) : path := div p (parse_path s).

Definition name (p : path) : string := default "" (last (comps p)).

Definition parent (p : path) : path := Path (root p) (removelast (comps p)).

(** [parts[-1]] *)
Definition last_part (p : path) : string :=
  match last (comps p) with
  | Some c => c
  | None => root p
  end.

Fixpoint rindex_dot (s : string) : option nat :=
  match s with
  | EmptyString => None
  | String c s' =>
      match rindex_dot s' with
      | Some i => Some (S i)
      | None => if Ascii.eqb c "." then Some 0 else None
      end
  end.

(** [PurePath.suffix] and [PurePath.stem] on a name. *)
Definition name_suffix (nm : string) : string :=
  match rindex_dot nm with
  | Some i =>
      if Nat.ltb 0 i && Nat.ltb i (String.length nm - 1)
      then substring i (String.length nm - i) nm else ""
  | None => ""
  end.

Definition name_stem (nm : string) : string :=
  match rindex_dot nm with
  | Some i =>
      if Nat.ltb 0 i && Nat.ltb i (String.length nm - 1)
      then substring 0 i nm else nm
  | None => nm
  end.

Definition suffix (p : path) : string := name_suffix (name p).
Definition stem (p : path) : string := name_stem (name p).

(** ['/' in s] *)
Fixpoint has_slash (s : string) : bool :=
  match s with
  | EmptyString => false
  | String c s' => Ascii.eqb c "/" || has_slash s'
  end.

(** ** Exceptions and the state monad of the script *)

(** The exceptions the script can raise; [UnicodeDecodeError] is a
    [ValueError] and [ParseError] ([xml.etree.ElementTree.ParseError]) a
    [SyntaxError] in Python. *)
Inductive exn :=
  | OSError | TypeError | ValueError | RecursionError | UnicodeDecodeError | ParseError.

Inductive outcome (A : Type) := Ok (a : A) | Raise (e : exn).
Arguments Ok {A} a.
Arguments Raise {A} e.

(** ** Strings and dicts *)

(** [str.replace(old, new)] with a non-empty [old]: a left-to-right scan
    replacing non-overlapping occurrences; [skip] counts the characters of
    a replaced occurrence still to be passed over. *)
Fixpoint replace_aux (old new : string) (skip : nat) (s : string) : string :=
  match s with
  | EmptyString => EmptyString
  | String c s' =>
      match skip with
      | S k => replace_aux old new k s'
      | O =>
          if String.prefix old s
          then String.append new (replace_aux old new (String.length old - 1) s')
          else String c (replace_aux old new 0 s')
      end
  end.

(** [str.replace('', new)] inserts [new] before every character and at the
    end. *)
Fixpoint replace_empty (new : string) (s : string) : string :=
  match s with
  | EmptyString => new
  | String c s' => String.append new (String c (replace_empty new s'))
  end.

Definition py_replace (s old new : string) : string :=
  if String.eqb old "" then replace_empty new s else replace_aux old new 0 s.

(** A Python [dict] from strings to strings: an association list in
    insertion order. *)
Definition dict := list (string * string).

(** [d[k]] *)
Fixpoint dict_get (d : dict) (k : string) : option string :=
  match d with
  | [] => None
  | (k', v) :: d' => if String.eqb k k' then Some v else dict_get d' k
  end.

(** [d[k] = v]: an existing key keeps its place, a new one goes last. *)
Fixpoint dict_set (d : dict) (k v : string) : dict :=
  match d with
  | [] => [(k, v)]
  | (k', v') :: d' =>
      if String.eqb k k' then (k', v) :: d' else (k', v') :: dict_set d' k v
  end.

(** The loop of [with_applied_placeholders] over [replacements.items()]. *)
Definition apply_replacements (content : string) (replacements : dict) : string :=
  fold_left (fun c '(placeholder, replacement) => py_replace c placeholder replacement)
    replacements content.

(** [str.capitalize] on ASCII text: the first character upper case, the
    others lower case (the case mapping of the example worlds). *)
Definition ascii_upper (c : ascii) : ascii :=
  let n := nat_of_ascii c in
  if Nat.leb 97 n && Nat.leb n 122 then ascii_of_nat (n - 32) else c.

Definition ascii_lower (c : ascii) : ascii :=
  let n := nat_of_ascii c in
  if Nat.leb 65 n && Nat.leb n 90 then ascii_of_nat (n + 32) else c.

Fixpoint lower (s : string) : string :=
  match s with
  | EmptyString => EmptyString
  | String c s' => String (ascii_lower c) (lower s')
  end.

Definition ascii_capitalize (s : string) : string :=
  match s with
  | EmptyString => EmptyString
  | String c s' => String (ascii_upper c) (lower s')
  end.

(** [s.endswith(sfx)] *)
Definition ends_with (sfx s : string) : bool :=
  Nat.leb (String.length sfx) (String.length s) &&
  String.eqb (substring (String.length s - String.length sfx) (String.length sfx) s) sfx.

(** The double quote character. *)
Definition dquote : string := String (ascii_of_nat 34) EmptyString.

(** [_escape_cdata] of [xml.etree.ElementTree]. *)
Definition escape_cdata (text : string) : string :=
  py_replace (py_replace (py_replace text "&" "&amp;") "<" "&lt;") ">" "&gt;".

(** [_escape_attrib] of [xml.etree.ElementTree] (Python 3.12). *)
Definition escape_attrib (text : string) : string :=
  py_replace (py_replace (py_replace (py_replace (escape_cdata text)
    dquote "&quot;") (String "013" EmptyString) "&#13;")
    (String "010" EmptyString) "&#10;") (String "009" EmptyString) "&#09;".

(** [if text:] for an optional string: [None] and [''] are false. *)
Definition truthy (t : option string) : bool :=
  match t with Some x => negb (String.eqb x "") | None => false end.

(** [_namespace_map] of [xml.etree.ElementTree]: the well-known namespace
    prefixes. *)
Definition namespace_map : dict :=
  [("http://www.w3.org/XML/1998/namespace", "xml");
   ("http://www.w3.org/1999/xhtml", "html");
   ("http://www.w3.org/1999/02/22-rdf-syntax-ns#", "rdf");
   ("http://schemas.xmlsoap.org/wsdl/", "wsdl");
   ("http://www.w3.org/2001/XMLSchema", "xs");
   ("http://www.w3.org/2001/XMLSchema-instance", "xsi");
   ("http://purl.org/dc/elements/1.1/", "dc")].

(** [s.rsplit("}", 1)]: [Some (before, after)] around the last ["}"], [None]
    when there is none (the one-element list that makes the unpacking
    [uri, tag = ...] raise [ValueError]). *)
Fixpoint rsplit_brace (s : string) : option (string * string) :=
  match s with
  | EmptyString => None
  | String c s' =>
      match rsplit_brace s' with
      | Some (a, b) => Some (String c a, b)
      | None => if Ascii.eqb c "}"%char then Some ("", s') else None
      end
  end.

(** [add_qname] of [_namespaces], on the [namespaces] dict (uri to prefix,
    in insertion order); [None] is the [ValueError] of the unpacking.  The
    [qnames] memo only skips calls that would leave [namespaces] as it is. *)
Definition add_qname (ns : dict) (q : string) : option dict :=
  match q with
  | String c r =>
      if Ascii.eqb c "{"%char then
        match rsplit_brace r with
        | None => None
        | Some (uri, _) =>
            match dict_get ns uri with
            | Some _ => Some ns
            | None =>
                let prefix := match dict_get namespace_map uri with
                              | Some p => p
                              | None => String.append "ns" (pretty (N.of_nat (length ns)))
                              end in
                Some (if String.eqb prefix "xml" then ns else ns ++ [(uri, prefix)])
            end
        end
      else Some ns
  | EmptyString => Some ns
  end.

(** The names [_namespaces] visits, in [elem.iter()] order: each element's
    tag, then its attribute keys. *)
Fixpoint elem_names (e : elem) : list string :=
  match e with
  | Elem g a _ _ ks => g :: map fst a ++ List.concat (map elem_names ks)
  end.

(** The [namespaces] dict built by [_namespaces(elem)] (no default
    namespace), or [None] for its [ValueError]. *)
Definition namespaces_of (e : elem) : option dict :=
  foldl (fun acc q => acc ≫= fun ns => add_qname ns q) (Some []) (elem_names e).

(** The [qnames] entry of a name: [prefix:local] for [{uri}local]. *)
Definition qname_of (ns : dict) (q : string) : string :=
  match q with
  | String c r =>
      if Ascii.eqb c "{"%char then
        match rsplit_brace r with
        | Some (uri, tag) =>
            let prefix := match dict_get ns uri with
                          | Some p => p
                          | None => default "" (dict_get namespace_map uri)
                          end in
            if String.eqb prefix "" then tag else String.concat "" [prefix; ":"; tag]
        | None => q
        end
      else q
  | EmptyString => q
  end.

(** Python's [<] on strings (code point order). *)
Fixpoint string_ltb (a b : string) : bool :=
  match a, b with
  | _, EmptyString => false
  | EmptyString, String _ _ => true
  | String c a', String d b' =>
      if Nat.ltb (nat_of_ascii c) (nat_of_ascii d) then true
      else if Nat.eqb (nat_of_ascii c) (nat_of_ascii d) then string_ltb a' b'
      else false
  end.

(** [sorted(namespaces.items(), key=lambda x: x[1])]: a stable insertion
    sort on the prefix. *)
Fixpoint insert_by_prefix (x : string * string) (l : dict) : dict :=
  match l with
  | [] => [x]
  | y :: l' => if string_ltb x.2 y.2 then x :: l else y :: insert_by_prefix x l'
  end.

Definition sort_by_prefix (ns : dict) : dict :=
  fold_left (fun acc x => insert_by_prefix x acc) ns [].

(** The [xmlns] declarations written on the serialized element. *)
Definition xmlns_decls (ns : dict) : string :=
  String.concat "" (map (fun '(uri, k) =>
    String.concat "" [" xmlns"; (if String.eqb k "" then "" else String.append ":" k);
                      "="; dquote; escape_attrib uri; dquote]) (sort_by_prefix ns)).

(** [_serialize_xml] with [short_empty_elements=True]; [decls] are the
    namespace declarations, passed to the top element only.  The element's
    tail is written after it. *)
Fixpoint serialize_xml (qn : string -> string) (decls : string) (e : elem) : string :=
  match e with
  | Elem g a t tl ks =>
      String.concat "" [
        "<"; qn g; decls;
        String.concat "" (map (fun kv =>
          String.concat "" [" "; qn kv.1; "="; dquote; escape_attrib kv.2; dquote]) a);
        (if truthy t || negb (Nat.eqb (length ks) 0)
         then String.concat "" [
                ">"; (if truthy t then escape_cdata (default "" t) else "");
                String.concat "" (map (serialize_xml qn "") ks);
                "</"; qn g; ">"]
         else " />");
        (if truthy tl then escape_cdata (default "" tl) else "")]
  end.

(** [ElementTree.tostring(e, encoding='unicode')]: [_namespaces] over the
    element, then [_serialize_xml]; [None] is the [ValueError] raised for a
    name that starts with ["{"] and has no ["}"] (a parsed document has only
    [{uri}local] and plain names, so never). *)
Definition serialize (e : elem) : option string :=
  ns ← namespaces_of e;
  Some (serialize_xml (qname_of ns) (xmlns_decls ns) e).

(** [tostring] succeeds on [e] exactly when its names pass [_namespaces]. *)
Definition names_ok (e : elem) : bool :=
  match namespaces_of e with Some _ => true | None => false end.

(** ** Path methods (pathlib, Python 3.12) *)

(** [p.with_name(nm)] *)
Definition with_name (p : path) (nm : string) : outcome path :=
  if String.eqb (name p) "" then Raise ValueError
  else if String.eqb nm "" || has_slash nm || String.eqb nm "." then Raise ValueError
  else Ok (Path (root p) (removelast (comps p) ++ [nm])).

(** [p.with_suffix(sfx)] *)
Definition with_suffix (p : path) (sfx : string) : outcome path :=
  if has_slash sfx then Raise ValueError
  else if (negb (String.eqb sfx "") && negb (String.prefix "." sfx)) || String.eqb sfx "."
  then Raise ValueError
  else
    let nm := name p in
    if String.eqb nm "" then Raise ValueError
    else
      let old_suffix := suffix p in
      let nm' := if String.eqb old_suffix ""
                 then String.append nm sfx
                 else String.append
                        (substring 0 (String.length nm - String.length old_suffix) nm) sfx in
      Ok (Path (root p) (removelast (comps p) ++ [nm'])).

Fixpoint is_prefix (xs ys : list string) : bool :=
  match xs, ys with
  | [], _ => true
  | x :: xs', y :: ys' => String.eqb x y && is_prefix xs' ys'
  | _ :: _, [] => false
  end.

(** [p.is_relative_to(other)]: [other == p or other in p.parents]. *)
Definition is_relative_to (p other : path) : bool :=
  String.eqb (root p) (root other) && is_prefix (comps other) (comps p).

(** [p.relative_to(other)] (no [walk_up]). *)
Definition relative_to (p other : path) : outcome path :=
  if is_relative_to p other
  then Ok (Path "" (skipn (length (comps other)) (comps p)))
  else Raise ValueError.

(** [p.as_posix()] *)
Definition as_posix (p : path) : string :=
  let body := String.concat "/" (comps p) in
  if absolute p then String.append (root p) body
  else if String.eqb body "" then "." else body.

(** [transform_to_dst_file] (lines 146-155). *)
Definition transform_to_dst_file (template_file : path) (replace_string replaced_name : string)
    (sfx : string) (dst_path : path) : outcome path :=
  match with_name template_file (py_replace (name template_file) replace_string replaced_name) with
  | Raise e => Raise e
  | Ok new_file_path =>
      match with_suffix new_file_path sfx with
      | Raise e => Raise e
      | Ok new_file_path => Ok (div_str dst_path (last_part new_file_path))
      end
  end.

(** Log records of the [logging] calls. *)
Inductive event :=
  | ECopying (src dst : path)            (* info: "copying {src} to {dst}" *)
  | ESkipped (src : path)                (* warning/error: "skipped {src} ..." *)
  | ECreating (dst : path)               (* info: "creating {dst}" *)
  | EMultipleSco (dir : path) (picked : string)  (* warning of RunGroup *)
  | EShowingTutorial                     (* info: "showing tutorial ..." *)
  | EFoundTemplates (kind : string) (templates : list path).
                                         (* info: "found the following {kind} templates" *)

(** Files written by the script. *)
Inductive output :=
  | MatFile (p : path) (e : elem)        (* ElementTree.write *)
  | ScoFile (p : path) (s : string)      (* write_content_to *)
  | LogFile (p : path).                  (* logging.FileHandler: opened for appending *)

Record state := St { heap : store; logs : list event; files : list output }.

(** How [open(p).read()] fails: the file cannot be opened or read
    ([OSError]), or its bytes are not text in the locale's encoding
    ([UnicodeDecodeError]). *)
Inductive read_failure := ReadOSError | ReadDecodeError.

Definition read_exn (f : read_failure) : exn :=
  match f with ReadOSError => OSError | ReadDecodeError => UnicodeDecodeError end.

(** How [ElementTree.parse(p)] fails: the file cannot be opened or read
    ([OSError]), or it is not well-formed XML ([ParseError]). *)
Inductive parse_failure := ParseOSError | ParseMalformed.

Definition parse_exn (f : parse_failure) : exn :=
  match f with ParseOSError => OSError | ParseMalformed => ParseError end.

(** The file system as seen by the script, and the Unicode case mapping of
    [str.capitalize] (the first character title-cased, the others lower
    cased, over all of Unicode), which the model takes as given. *)
Record world := World {
  w_read : path -> option string;          (* open(p).read(); None: it raises *)
  w_read_failure : path -> read_failure;   (* what it raises then *)
  w_parse : path -> option elem;           (* ElementTree.parse(p) root; None: it raises *)
  w_parse_failure : path -> parse_failure; (* what it raises then *)
  w_copy : path -> path -> bool;           (* dst.parent.mkdir + shutil.copy succeed *)
  w_list : path -> list string;            (* directory entries, in glob order *)
  w_write : path -> bool;                  (* mkdir + open(p, 'w') succeed *)
  w_capitalize : string -> string          (* str.capitalize *)
}.

Definition M (A : Type) : Type := state -> outcome A * state.

Global Instance M_ret : MRet M := fun A a s => (Ok a, s).
Global Instance M_bind : MBind M := fun A B k m s =>
  match m s with
  | (Ok a, s') => k a s'
  | (Raise e, s') => (Raise e, s')
  end.

Definition throw {A} (e : exn) : M A := fun s => (Raise e, s).

Definition log (ev : event) : M unit :=
  fun s => (Ok tt, St (heap s) (logs s ++ [ev]) (files s)).

Definition emit (o : output) : M unit :=
  fun s => (Ok tt, St (heap s) (logs s) (files s ++ [o])).

Definition get_heap : M store := fun s => (Ok (heap s), s).

Definition put_heap (h : store) : M unit :=
  fun s => (Ok tt, St h (logs s) (files s)).

(** [for x in l: body(x)] *)
Fixpoint for_each {A} (l : list A) (body : A -> M unit) : M unit :=
  match l with
  | [] => mret tt
  | x :: l' => body x ;; for_each l' body
  end.

(** [RunGroup] and [RunConfiguration] (the [scale] option is read but not
    used by the functions modelled here). *)
Record run_group := RunGroup { nl2sco_file : option path; nl2mat_files : list path }.

Record run_configuration := RunConfiguration {
  run_groups : list run_group;
  nl2mat_dst : string;
  nl2sco_dst : string;
  preview_dst : string
}.

Section Script.

Variable w : world.

(** Depth bound of [copy.deepcopy] (Python's recursion limit). *)
Variable recursion_limit : nat.

(** [ElementTree.parse(file)]: fresh nodes for the file's document. *)
Definition et_parse (file : path) : M nat :=
  match w_parse w file with
  | None => throw (parse_exn (w_parse_failure w file))
  | Some e => h ← get_heap; let '(h', a) := alloc h e in put_heap h' ;; mret a
  end.

(** [copy.deepcopy(tree)] *)
Definition deepcopy (a : nat) : M nat :=
  h ← get_heap;
  match read recursion_limit h a with
  | None => throw RecursionError
  | Some e => let '(h', a') := alloc h e in put_heap h' ;; mret a'
  end.

(** [with_tc_info_from(template_file, nl2mat_tree)] (lines 163-175).
    [template_tree.find] returns [None] when the path is absent; iterating
    over [None] raises [TypeError]. *)
Definition with_tc_info_from (template_file : path) (nl2mat_tree : nat) : M nat :=
  new_nl2mat_tree ← deepcopy nl2mat_tree;
  template_tree ← et_parse template_file;
  h ← get_heap;
  let template_texunit := find h template_tree texunit_path in
  let nl2mat_texunits := findall h new_nl2mat_tree texunit_path in
  for_each nl2mat_texunits (fun texunit =>
    match template_texunit with
    | None => throw TypeError
    | Some u =>
        h ← get_heap;
        for_each (kids_at h u) (fun tc_entry =>
          h ← get_heap; put_heap (append_child h texunit tc_entry))
    end) ;;
  mret new_nl2mat_tree.

(** Raising an exception computed by a pure function. *)
Definition lift {A} (o : outcome A) : M A := fun s => (o, s).

(** The body of the loop of [copy_files] (lines 127-143): both [except]
    branches log the skipped file and go on.  [next] is the step of the
    generator that yields the pair, run by the [for] statement outside the
    [try]. *)
Definition copy_files (src_dst_list : list (M (path * path))) : M unit :=
  for_each src_dst_list (fun next =>
    p ← next;
    log (ECopying p.1 p.2) ;;
    if w_copy w p.1 p.2 then mret tt else log (ESkipped p.1)).

(** [read_content_of] *)
Definition read_content_of (template_file : path) : M string :=
  match w_read w template_file with
  | None => throw (read_exn (w_read_failure w template_file))
  | Some content => mret content
  end.

(** [str.capitalize] *)
Definition capitalize (s : string) : string := w_capitalize w s.

(** [write_content_to] *)
Definition write_content_to (content : string) (file : path) : M unit :=
  if w_write w file then emit (ScoFile file content) else throw OSError.

(** [with_applied_placeholders] (lines 178-185). *)
Definition with_applied_placeholders (template_file : path) (replacements : dict) : M string :=
  content ← read_content_of template_file;
  mret (apply_replacements content replacements).

(** [create_nl2scos] (lines 188-204). *)
Definition create_nl2scos (sco_templates : list path) (placeholders_replacements : dict)
    (material_name : string) (dst_path : path) : M unit :=
  for_each sco_templates (fun sco_template =>
    new_nl2sco_content ← with_applied_placeholders sco_template placeholders_replacements;
    dst_nl2sco ← lift (transform_to_dst_file sco_template
                         "[sco]" (capitalize material_name) ".nl2sco" dst_path);
    log (ECreating dst_nl2sco) ;;
    write_content_to new_nl2sco_content dst_nl2sco).

(** The [(origin_path / texture, dst_path / texture)] generator step for one
    [map] node: [node.text] is [None] for an empty node, and [path / None]
    raises [TypeError]. *)
Definition texture_copy (origin_path dst_path : path) (node : nat) : M (path * path) :=
  h ← get_heap;
  match h !! node ≫= ntext with
  | None => throw TypeError
  | Some texture => mret (div_str origin_path texture, div_str dst_path texture)
  end.

(** [new_nl2mat_content.write(dst_nl2mat)] after [mkdir]. *)
Definition write_tree (tree : nat) (file : path) : M unit :=
  h ← get_heap;
  match read recursion_limit h tree with
  | None => throw RecursionError
  | Some e => if w_write w file then emit (MatFile file e) else throw OSError
  end.

(** [handle_materials] (lines 212-236). *)
Definition handle_materials (nl2mat_file : path) (tc_templates : list path)
    (material_name : string) (dst_path : path) : M unit :=
  let origin_path := parent nl2mat_file in
  nl2mat_tree ← et_parse nl2mat_file;
  h ← get_heap;
  copy_files (map (texture_copy origin_path dst_path) (findall h nl2mat_tree map_path)) ;;
  for_each tc_templates (fun template_file =>
    dst_nl2mat ← lift (transform_to_dst_file template_file
                         "[mat]" (String.append "[" (String.append material_name "]"))
                         ".nl2mat" dst_path);
    new_nl2mat_content ← with_tc_info_from template_file nl2mat_tree;
    log (ECreating dst_nl2mat) ;;
    write_tree new_nl2mat_content dst_nl2mat).

Definition sco_defaults : dict :=
  [("{preview}", ""); ("{original_usercolors}", "");
   ("{scale_settings}", ""); ("{material_name}", "")].

(** [ElementTree.tostring(color, encoding='unicode')].  Reading the element
    at the recursion limit stands for the recursion of [_serialize_xml]; it
    is checked before the names, which only matters for a tree that is both
    too deep and has a name [_namespaces] rejects (not a parsed one). *)
Definition tostring (a : nat) : M string :=
  h ← get_heap;
  match read recursion_limit h a with
  | None => throw RecursionError
  | Some e =>
      match serialize e with
      | None => throw ValueError
      | Some c => mret c
      end
  end.

Fixpoint map_M {A B} (f : A -> M B) (l : list A) : M (list B) :=
  match l with
  | [] => mret []
  | x :: l' => y ← f x; ys ← map_M f l'; mret (y :: ys)
  end.

(** The [if preview is not None:] block of [get_sco_replacements]. *)
Definition sco_preview (nl2sco_file : path) (sco_tree : nat) (preview_dst sco_dst : path)
    (replacements : dict) : M dict :=
  h ← get_heap;
  match find h sco_tree ["sceneobject"; "preview"] with
  | None => mret replacements
  | Some preview =>
      match h !! preview ≫= ntext with
      | None => throw TypeError
      | Some text =>
          let preview_src_file := div_str (parent nl2sco_file) text in
          let preview_dst_file := div_str preview_dst text in
          copy_files [mret (preview_src_file, preview_dst_file)] ;;
          preview_text ← lift (relative_to preview_dst_file sco_dst);
          mret (dict_set replacements "{preview}"
                  (String.append "<preview>"
                     (String.append (as_posix preview_text) "</preview>")))
      end
  end.

(** [get_sco_replacements] (lines 239-263); a path is always true in an
    [if], so [if nl2sco_file:] tests for [None]. *)
Definition get_sco_replacements (nl2sco_file : option path) (preview_dst sco_dst : path) : M dict :=
  match nl2sco_file with
  | None => mret sco_defaults
  | Some f =>
      sco_tree ← et_parse f;
      replacements ← sco_preview f sco_tree preview_dst sco_dst sco_defaults;
      h ← get_heap;
      usercolors ← map_M tostring (findall h sco_tree ["sceneobject"; "usercolor"]);
      match usercolors with
      | [] => mret replacements
      | _ :: _ => mret (dict_set replacements "{original_usercolors}"
                          (String.concat (String "010" EmptyString) usercolors))
      end
  end.

(** The loop of [process_group_files] over [nl2mat_files]; the dict
    [sco_replacements] is one object, updated in place by every turn. *)
Fixpoint process_materials (sco_replacements : dict) (nl2mat_files : list path)
    (mat_tc_templates : list path) (mat_dst : path) (sco_templates : list path)
    (sco_dst : path) : M unit :=
  match nl2mat_files with
  | [] => mret tt
  | mat_file :: rest =>
      let material_name := stem mat_file in
      handle_materials mat_file mat_tc_templates material_name mat_dst ;;
      let sco_replacements := dict_set sco_replacements "{material_name}" material_name in
      create_nl2scos sco_templates sco_replacements material_name sco_dst ;;
      process_materials sco_replacements rest mat_tc_templates mat_dst sco_templates sco_dst
  end.

(** [process_group_files] (lines 266-280). *)
Definition process_group_files (nl2mat_files mat_tc_templates : list path) (mat_dst : path)
    (nl2sco_file : option path) (sco_templates : list path) (sco_dst preview_dst : path) : M unit :=
  sco_replacements ← get_sco_replacements nl2sco_file preview_dst sco_dst;
  process_materials sco_replacements nl2mat_files mat_tc_templates mat_dst sco_templates sco_dst.

(** [p.glob('*' + ext)]: the entries whose names end in [ext], in the
    order of [w_list]. *)
Definition glob (p : path) (ext : string) : list path :=
  map (div_str p) (filter (fun f => ends_with ext f = true) (w_list w p)).

(** [RunGroup.from_path_content] (lines 48-61). *)
Definition from_path_content (p : path) : M run_group :=
  let nl2sco_files := glob p ".nl2sco" in
  let nl2sco_file := head nl2sco_files in
  (if Nat.ltb 1 (length nl2sco_files)
   then log (EMultipleSco p (default "" (name <$> nl2sco_file)))
   else mret tt) ;;
  let nl2mat_files := glob p ".nl2mat" in
  mret (RunGroup nl2sco_file nl2mat_files).

(** [run_for_config] (lines 283-291). *)
Definition run_for_config (exec_dir : path) (run_config : run_configuration)
    (mat_tc_templates sco_templates : list path) : M unit :=
  let mat_dst := div exec_dir (parse_path (nl2mat_dst run_config)) in
  let sco_dst := div exec_dir (parse_path (nl2sco_dst run_config)) in
  let preview_dst := div exec_dir (parse_path (preview_dst run_config)) in
  for_each (run_groups run_config) (fun group =>
    process_group_files (nl2mat_files group) mat_tc_templates mat_dst
      (nl2sco_file group) sco_templates sco_dst preview_dst).

End Script.


(** ** The command line and [main] *)

Section Main.

Variable w : world.
Variable recursion_limit : nat.

(** [path.is_dir()] and [path.exists()] for a path given on the command
    line; [None] when the call raises: both catch only the [OSError]s with
    errno [ENOENT], [ENOTDIR], [EBADF] or [ELOOP] (and a [ValueError]) and
    let every other [OSError] through. *)
Variable is_dir : path -> option bool.
Variable path_exists : path -> option bool.

(** Whether [subprocess.Popen(('notepad', file))] starts the editor; when
    the program cannot be started, [Popen] raises [OSError]. *)
Variable notepad_starts : bool.

(** [datetime.datetime.now().strftime('%Y-%m-%d_%H-%M-%S')], and whether
    [logging.FileHandler] can open the log file (mode ['a']); when it
    cannot, it raises [OSError]. *)
Variable log_file_date : string.
Variable log_file_opens : bool.

(** [RunGroup.has_data] (lines 82-83). *)
Definition has_data (group : run_group) : bool :=
  Nat.ltb 0 (length (nl2mat_files group)).

(** The loop of [RunGroup.groups_from_paths] (lines 71-78).  [groups[0]]
    holds the list object [ungrouped_nl2mats], which the loop appends to in
    place; the loop carries that list and the groups after [groups[0]]. *)
Fixpoint groups_loop (file_arguments : list string) (ungrouped_nl2mats : list path)
    (groups : list run_group) : M (list path * list run_group) :=
  match file_arguments with
  | [] => mret (ungrouped_nl2mats, groups)
  | file :: rest =>
      let p := parse_path file in
      match is_dir p with
      | None => throw OSError
      | Some true =>
          group ← from_path_content w p;
          groups_loop rest ungrouped_nl2mats
            (if has_data group then groups ++ [group] else groups)
      | Some false =>
          match path_exists p with
          | None => throw OSError
          | Some b =>
              if b && String.eqb (suffix p) ".nl2mat" then
                groups_loop rest (ungrouped_nl2mats ++ [p]) groups
              else groups_loop rest ungrouped_nl2mats groups
          end
      end
  end.

(** [RunGroup.groups_from_paths] (lines 63-80). *)
Definition groups_from_paths (file_arguments : list string) : M (list run_group) :=
  ug ← groups_loop file_arguments [] [];
  mret (RunGroup None ug.1 :: ug.2).

(** The value [argparse] stores for an option declared with [nargs=1] and
    [type=str]: the default string when the option is absent, the list of
    its one value when it is given. *)
Inductive arg_value := AStr (s : string) | AList (l : list string).

Definition nargs1 (given : option string) (default : string) : arg_value :=
  match given with
  | None => AStr default
  | Some v => AList [v]
  end.

(** The command line as [argparse] reads it: the positional [files] and the
    three output options ([--scale] is parsed but never used). *)
Record command_line := CommandLine {
  cl_files : list string;
  cl_nl2mat_out : option string;
  cl_nl2sco_out : option string;
  cl_preview_out : option string
}.

(** A [RunConfiguration] as [from_args] builds it, with the values
    [argparse] stored for the output options. *)
Record parsed_configuration := ParsedConfiguration {
  p_run_groups : list run_group;
  p_nl2mat_dst : arg_value;
  p_nl2sco_dst : arg_value;
  p_preview_dst : arg_value
}.

Definition NL2MAT_OUT_DEFAULT : string := "./Scaleable Build Shapes/resources/materials/".
Definition NL2SCO_OUT_DEFAULT : string := "./Scaleable Build Shapes/".
Definition PREVIEW_OUT_DEFAULT : string := "./Scaleable Build Shapes/resources/previews/".

(** [RunConfiguration.from_args] (lines 94-118); both branches of
    [if args:] parse the same way. *)
Definition from_args (args : command_line) : M parsed_configuration :=
  groups ← groups_from_paths (cl_files args);
  mret (ParsedConfiguration groups
          (nargs1 (cl_nl2mat_out args) NL2MAT_OUT_DEFAULT)
          (nargs1 (cl_nl2sco_out args) NL2SCO_OUT_DEFAULT)
          (nargs1 (cl_preview_out args) PREVIEW_OUT_DEFAULT)).

(** [exec_dir / pathlib.Path(v)]: [pathlib.Path] of a list raises
    [TypeError]. *)
Definition path_arg (exec_dir : path) (v : arg_value) : M path :=
  match v with
  | AStr s => mret (div exec_dir (parse_path s))
  | AList _ => throw TypeError
  end.

(** [run_for_config] (lines 283-291) on the configuration [from_args]
    returns. *)
Definition run_for_parsed_config (exec_dir : path) (run_config : parsed_configuration)
    (mat_tc_templates sco_templates : list path) : M unit :=
  mat_dst ← path_arg exec_dir (p_nl2mat_dst run_config);
  sco_dst ← path_arg exec_dir (p_nl2sco_dst run_config);
  preview_dst ← path_arg exec_dir (p_preview_dst run_config);
  for_each (p_run_groups run_config) (fun group =>
    process_group_files w recursion_limit (nl2mat_files group) mat_tc_templates mat_dst
      (nl2sco_file group) sco_templates sco_dst preview_dst).

Definition TEMPLATE_SCO_IDENTIFIER : string := "[sco".
Definition TEMPLATE_MAT_IDENTIFIER : string := "[mat".
Definition TEMPLATE_DIR : string := "./templates".
Definition TUTORIAL_FILE : string := "How to Use Buildshapeify.txt".

Definition TUTORIAL_TEXT : string :=
  String.concat (String "010" EmptyString)
    ["Buildshapeify by bestdani"; "";
     "To use this tool, you have to drag and drop files onto";
     "the executable file."; "";
     "You can drag and drop multiple single nl2mat files and simultaneously ";
     "directories with nl2mat files and optionally a nl2sco file in them."; "";
     "The optional nl2sco file will give the tool the required information to also ";
     "include custom colors and preview files for the materials grouped in the ";
     "same directory."; "";
     "When the files have been dropped, new output files will be created in the";
     "Scaleable Build Shapes directory, the nl2sco files can be used in NL2 and you";
     "can also merge existing versions with your newly created version."; "";
     "Run this tool from the command line with the -h option for more advanced";
     "information when you want to change the output directories."; "";
     "Always ensure the templates directory is next to the executable, advanced";
     "users might want to modify these."; ""; ""].

(** The names the pattern [identifier + '*.xml'] matches: [identifier]
    (no closing [']'], so its ['['] is literal), any text, then ['.xml']. *)
Definition template_name_matches (identifier f : string) : bool :=
  String.prefix identifier f && ends_with ".xml" f &&
  Nat.leb (String.length identifier + 4) (String.length f).

(** [get_template_files] (lines 294-295). *)
Definition get_template_files (p : path) (identifier : string) : list path :=
  map (div_str p) (filter (fun f => template_name_matches identifier f = true) (w_list w p)).

(** [create_tutorial_file] (lines 310-314). *)
Definition create_tutorial_file (tutorial_file : path) : M unit :=
  write_content_to w TUTORIAL_TEXT tutorial_file ;;
  if notepad_starts then mret tt else throw OSError.

(** [len(run_config.run_groups) == 1 and
    len(run_config.run_groups[0].nl2mat_files) == 0] *)
Definition show_tutorial (run_groups : list run_group) : bool :=
  match run_groups with
  | [g] => Nat.eqb (length (nl2mat_files g)) 0
  | _ => false
  end.

(** [exec_dir / f"buildshapeify_{log_file_date}.log"] *)
Definition log_file (exec_dir : path) : path :=
  div_str exec_dir (String.append "buildshapeify_" (String.append log_file_date ".log")).

(** [setup_logging] (lines 298-307): [logging.basicConfig] cannot fail;
    [logging.FileHandler(log_file)] opens (and creates) the log file. *)
Definition setup_logging (exec_dir : path) : M unit :=
  if log_file_opens then emit (LogFile (log_file exec_dir)) else throw OSError.

(** [main] (lines 317-350). *)
Definition main (exec_dir : path) (args : command_line) : M unit :=
  setup_logging exec_dir ;;
  run_config ← from_args args;
  if show_tutorial (p_run_groups run_config)
  then
    log EShowingTutorial ;;
    create_tutorial_file (div_str exec_dir TUTORIAL_FILE)
  else
    let mat_tc_templates :=
      get_template_files (div_str exec_dir TEMPLATE_DIR) TEMPLATE_MAT_IDENTIFIER in
    log (EFoundTemplates "material" mat_tc_templates) ;;
    let sco_templates :=
      get_template_files (div_str exec_dir TEMPLATE_DIR) TEMPLATE_SCO_IDENTIFIER in
    log (EFoundTemplates "sco" sco_templates) ;;
    run_for_parsed_config exec_dir run_config mat_tc_templates sco_templates.

End Main.

(** ** Notions used in the statements *)

(** [pat in s] *)
Fixpoint occurs (pat s : string) : bool :=
  String.prefix pat s ||
  match s with
  | EmptyString => false
  | String _ s' => occurs pat s'
  end.

(** A text cut into literal pieces and placeholder tokens. *)
Inductive segment := Lit (l : string) | Tok (k : string).

Fixpoint render (segs : list segment) : string :=
  match segs with
  | [] => EmptyString
  | Lit l :: segs' => String.append l (render segs')
  | Tok k :: segs' => String.append k (render segs')
  end.

(** No ['{'] in [s]. *)
Fixpoint brace_free (s : string) : bool :=
  match s with
  | EmptyString => true
  | String c s' => negb (Ascii.eqb c "{") && brace_free s'
  end.

(** A token ['{' ...] with no other ['{']. *)
Definition token_shaped (k : string) : bool :=
  match k with
  | EmptyString => false
  | String c b => Ascii.eqb c "{" && brace_free b
  end.

(** A dict entry whose key is a token and whose value has no ['{']. *)
Definition entry_ok (kv : string * string) : bool :=
  token_shaped kv.1 && brace_free kv.2.

(** A piece of the text: a literal with no ['{'], or a token that is a key of
    [d] or neither a prefix of a key nor has one as a prefix. *)
Definition segment_ok (d : dict) (sg : segment) : bool :=
  match sg with
  | Lit l => brace_free l
  | Tok k =>
      token_shaped k &&
      forallb (fun kv => String.eqb k kv.1 ||
                         negb (String.prefix k kv.1 || String.prefix kv.1 k)) d
  end.

(** A piece after substitution with [d]: a token of [d] becomes its value. *)
Definition resolve (d : dict) (sg : segment) : segment :=
  match sg with
  | Lit l => Lit l
  | Tok k => match dict_get d k with Some v => Lit v | None => Tok k end
  end.

(** The files written by [write_content_to], with their contents. *)
Definition sco_outputs (fs : list output) : list (path * string) :=
  fs ≫= (fun o => match o with ScoFile p c => [(p, c)] | _ => [] end).

(** The scene-object files one call of [create_nl2scos] writes when it
    returns normally. *)
Definition expected_scos (w : world) (sco_templates : list path) (d : dict)
    (material_name : string) (dst_path : path) : list (path * string) :=
  sco_templates ≫= (fun tpl =>
    match w_read w tpl,
          transform_to_dst_file tpl "[sco]" (capitalize w material_name) ".nl2sco" dst_path with
    | Some c, Ok p => [(p, apply_replacements c d)]
    | _, _ => []
    end).

(** The log records of [copy_files] over plain pairs. *)
Definition copy_log (w : world) (l : list (path * path)) : list event :=
  l ≫= (fun p => ECopying p.1 p.2 :: (if w_copy w p.1 p.2 then [] else [ESkipped p.1])).

(** ** Value-level description of the graft *)

(** The element [e] with the elements [frag] appended to the children of
    every element at [path]. *)
Fixpoint graft_at (path : list string) (frag : list elem) (e : elem) : elem :=
  match e with
  | Elem g a t tl ks =>
      match path with
      | [] => Elem g a t tl (ks ++ frag)
      | q :: ps =>
          Elem g a t tl (map (fun k => if bool_decide (etag k = q)
                                  then graft_at ps frag k else k) ks)
      end
  end.

Definition append_kids (frag : list elem) (e : elem) : elem :=
  Elem (etag e) (eattrib e) (etext e) (etail e) (ekids e ++ frag).

(** The children of the template's first texture unit ([] if it has none). *)
Definition frag_of (template : elem) : list elem :=
  match find_v template texunit_path with
  | Some u => ekids u
  | None => []
  end.

(** [reads h a e]: the element rooted at [a] reads as [e], for any large
    enough depth bound. *)
Definition reads (h : store) (a : nat) (e : elem) : Prop :=
  exists F, forall f, F <= f -> read f h a = Some e.

Definition reads_list (h : store) (xs : list nat) (ks : list elem) : Prop :=
  exists F, forall f, F <= f -> mapM (read f h) xs = Some ks.

(** [trep h lo a e]: the addresses [lo..a] of [h] hold the element [e] as
    [alloc] lays it out: the root at [a], the children in consecutive
    disjoint ranges of [lo..a-1]. *)
Inductive trep (h : store) : nat -> nat -> elem -> Prop :=
  | TRep lo a g ats t tl xs ks :
      h !! a = Some (Node g ats t tl xs) -> treps h lo a xs ks ->
      trep h lo a (Elem g ats t tl ks)
with treps (h : store) : nat -> nat -> list nat -> list elem -> Prop :=
  | TRepsNil lo : treps h lo lo [] []
  | TRepsCons lo x hi xs k ks :
      trep h lo x k -> treps h (S x) hi xs ks ->
      treps h lo hi (x :: xs) (k :: ks).

Scheme trep_mut := Induction for trep Sort Prop
with treps_mut := Induction for treps Sort Prop.
Combined Scheme trep_treps_mut from trep_mut, treps_mut.

Definition grow (n : node) (fs : list nat) : node :=
  Node (ntag n) (nattrib n) (ntext n) (ntail n) (nkids n ++ fs).

(** An address of the range [L..U] at the root of an allocated element. *)
Definition in_tree (h : store) (L U : nat) (x : nat) (v : elem) : Prop :=
  exists lo, trep h lo x v /\ L <= lo /\ x <= U.

(** ** Descriptions of the command-line functions *)

(** The warning [RunGroup.from_path_content] logs for a directory. *)
Definition sco_warning (w : world) (p : path) : list event :=
  if Nat.ltb 1 (length (glob w p ".nl2sco"))
  then [EMultipleSco p (default "" (name <$> head (glob w p ".nl2sco")))] else [].

(** The group [RunGroup.from_path_content] returns for a directory. *)
Definition dir_group (w : world) (p : path) : run_group :=
  RunGroup (head (glob w p ".nl2sco")) (glob w p ".nl2mat").

(** A check that returned [True]. *)
Definition returned_true (o : option bool) : bool :=
  match o with Some b => b | None => false end.

(** The [is_dir] and [exists] checks [groups_from_paths] makes on the
    arguments all return: [is_dir] on every argument, [exists] on those
    that are not directories. *)
Definition checks_return (is_dir path_exists : path -> option bool) (args : list string) : Prop :=
  Forall (fun f => is_dir (parse_path f) <> None /\
                   (is_dir (parse_path f) = Some false -> path_exists (parse_path f) <> None))
    args.

(** The command-line arguments that are directories. *)
Definition dir_arguments (is_dir : path -> option bool) (args : list string) : list path :=
  filter (fun p => returned_true (is_dir p) = true) (map parse_path args).

(** The command-line arguments that are existing [.nl2mat] files. *)
Definition ungrouped_arguments (is_dir path_exists : path -> option bool) (args : list string)
    : list path :=
  filter (fun p => negb (returned_true (is_dir p)) && returned_true (path_exists p) &&
                   String.eqb (suffix p) ".nl2mat" = true)
    (map parse_path args).

(** A command-line argument from which no material file is taken. *)
Definition no_material (w : world) (is_dir path_exists : path -> option bool) (f : string)
    : Prop :=
  let p := parse_path f in
  if returned_true (is_dir p) then glob w p ".nl2mat" = []
  else returned_true (path_exists p) = false \/ suffix p <> ".nl2mat".

(** ['./sceneobject/usercolor'] *)
Definition usercolor_path : list string := ["sceneobject"; "usercolor"].

(** The material files one call of [handle_materials] writes for the
    material document [D] when it returns normally. *)
Definition expected_mats (w : world) (tc_templates : list path) (D : elem)
    (material_name : string) (dst_path : path) : list output :=
  tc_templates ≫= (fun tpl =>
    match transform_to_dst_file tpl "[mat]" (String.append "[" (String.append material_name "]"))
            ".nl2mat" dst_path, w_parse w tpl with
    | Ok p, Some T => [MatFile p (graft_at texunit_path (frag_of T) D)]
    | _, _ => []
    end).

(** The ["creating ..."] records of those files. *)
Definition expected_mat_logs (w : world) (tc_templates : list path)
    (material_name : string) (dst_path : path) : list event :=
  tc_templates ≫= (fun tpl =>
    match transform_to_dst_file tpl "[mat]" (String.append "[" (String.append material_name "]"))
            ".nl2mat" dst_path, w_parse w tpl with
    | Ok p, Some _ => [ECreating p]
    | _, _ => []
    end).

(** The copies [handle_materials] makes for the textures [ts]. *)
Definition texture_pairs (origin_path dst_path : path) (ts : list string) : list (path * path) :=
  map (fun t => (div_str origin_path t, div_str dst_path t)) ts.

(** ** Lemmas on the heap *)

Lemma trep_bounds h :
  (forall lo a e, trep h lo a e -> lo <= a) /\
  (forall lo hi xs ks, treps h lo hi xs ks ->
     lo <= hi /\ Forall (fun x => lo <= x < hi) xs).
Proof.
  apply trep_treps_mut.
  - intros lo a g ats t tl xs ks _ _ [Hle _]. exact Hle.
  - intros lo. split; [lia | constructor].
  - intros lo x hi xs k ks _ Hk _ [Hle HF]. split; [lia|]. constructor; [lia|].
    eapply Forall_impl; [exact HF|]. simpl. lia.
Qed.

Lemma trep_le h lo a e : trep h lo a e -> lo <= a.
Proof. apply trep_bounds. Qed.

Lemma treps_bounds h lo hi xs ks :
  treps h lo hi xs ks -> lo <= hi /\ Forall (fun x => lo <= x < hi) xs.
Proof. apply trep_bounds. Qed.

Lemma trep_ext h :
  (forall lo a e, trep h lo a e -> forall h',
     (forall i, lo <= i <= a -> h' !! i = h !! i) -> trep h' lo a e) /\
  (forall lo hi xs ks, treps h lo hi xs ks -> forall h',
     (forall i, lo <= i < hi -> h' !! i = h !! i) -> treps h' lo hi xs ks).
Proof.
  apply trep_treps_mut.
  - intros lo a g ats t tl xs ks Ha Hs IH h' Hag.
    pose proof (proj1 (treps_bounds _ _ _ _ _ Hs)).
    apply (TRep _ lo a g ats t tl xs ks); [rewrite Hag; [done | lia] |].
    apply IH. intros i Hi. apply Hag. lia.
  - intros lo h' _. constructor.
  - intros lo x hi xs k ks Hk IHk Hs IHs h' Hag.
    pose proof (trep_le _ _ _ _ Hk). pose proof (proj1 (treps_bounds _ _ _ _ _ Hs)).
    constructor.
    + apply IHk. intros i Hi. apply Hag. lia.
    + apply IHs. intros i Hi. apply Hag. lia.
Qed.

Lemma trep_ext_1 h h' lo a e :
  trep h lo a e -> (forall i, lo <= i <= a -> h' !! i = h !! i) -> trep h' lo a e.
Proof. intros; eapply trep_ext; eauto. Qed.

Lemma treps_ext_1 h h' lo hi xs ks :
  treps h lo hi xs ks -> (forall i, lo <= i < hi -> h' !! i = h !! i) ->
  treps h' lo hi xs ks.
Proof. intros; eapply trep_ext; eauto. Qed.

Lemma reads_list_nil h : reads_list h [] [].
Proof. exists 0. intros f _. reflexivity. Qed.

Lemma reads_list_cons h x xs k ks :
  reads h x k -> reads_list h xs ks -> reads_list h (x :: xs) (k :: ks).
Proof.
  intros [F1 H1] [F2 H2]. exists (F1 `max` F2). intros f Hf. simpl.
  rewrite H1 by lia. simpl. rewrite H2 by lia. reflexivity.
Qed.

Lemma reads_list_app h xs1 xs2 ks1 ks2 :
  reads_list h xs1 ks1 -> reads_list h xs2 ks2 ->
  reads_list h (xs1 ++ xs2) (ks1 ++ ks2).
Proof.
  intros [F1 H1] [F2 H2]. exists (F1 `max` F2). intros f Hf.
  apply mapM_Some. apply Forall2_app; apply mapM_Some; [apply H1 | apply H2]; lia.
Qed.

Lemma reads_node h a g ats t tl xs ks :
  h !! a = Some (Node g ats t tl xs) -> reads_list h xs ks -> reads h a (Elem g ats t tl ks).
Proof.
  intros Ha [F HF]. exists (S F). intros [|f] Hf; [lia|]. simpl.
  rewrite Ha. simpl. rewrite HF by lia. reflexivity.
Qed.

Lemma trep_reads h :
  (forall lo a e, trep h lo a e -> reads h a e) /\
  (forall lo hi xs ks, treps h lo hi xs ks -> reads_list h xs ks).
Proof.
  apply trep_treps_mut.
  - intros lo a g ats t tl xs ks Ha _ IH. eapply reads_node; eauto.
  - intros lo. apply reads_list_nil.
  - intros lo x hi xs k ks _ IHk _ IHs. apply reads_list_cons; auto.
Qed.

Lemma trep_reads_ext h h' lo a e :
  trep h lo a e -> (forall i, lo <= i <= a -> h' !! i = h !! i) -> reads h' a e.
Proof. intros. eapply trep_reads, trep_ext_1; eauto. Qed.

Lemma treps_reads_ext h h' lo hi xs ks :
  treps h lo hi xs ks -> (forall i, lo <= i < hi -> h' !! i = h !! i) ->
  reads_list h' xs ks.
Proof. intros. eapply trep_reads, treps_ext_1; eauto. Qed.

Lemma alloc_spec e : forall h h' a,
  alloc h e = (h', a) ->
  (exists nw, h' = h ++ nw) /\ S a = length h' /\ trep h' (length h) a e.
Proof.
  induction e as [g ats t tl ks IH] using elem_ind'. intros h h' a Hal.
  rewrite alloc_Elem in Hal.
  assert (Hl : forall h h2 xs, alloc_list h ks = (h2, xs) ->
            (exists nw, h2 = h ++ nw) /\ treps h2 (length h) (length h2) xs ks).
  { clear Hal h h' a. induction IH as [|k ks Hk Hks IHks]; intros h h2 xs Hal.
    - simpl in Hal. inversion Hal; subst. split; [exists []; by rewrite app_nil_r|].
      constructor.
    - simpl in Hal. destruct (alloc h k) as [h1 a] eqn:E1.
      destruct (alloc_list h1 ks) as [h3 as_] eqn:E2. inversion Hal; subst.
      destruct (Hk _ _ _ E1) as [[n1 ->] [Ha Hr]].
      destruct (IHks _ _ _ E2) as [[n2 ->] Hrs].
      split; [exists (n1 ++ n2); by rewrite app_assoc|].
      econstructor.
      + eapply trep_ext_1; [exact Hr|]. intros i Hi.
        apply lookup_app_l. lia.
      + rewrite Ha. exact Hrs. }
  destruct (alloc_list h ks) as [h2 xs] eqn:E. inversion Hal; subst.
  destruct (Hl _ _ _ E) as [[nw ->] Hrs].
  split; [exists (nw ++ [Node g ats t tl xs]); by rewrite app_assoc|].
  split; [rewrite !length_app; simpl; lia|].
  econstructor.
  - rewrite lookup_app_r by lia. rewrite Nat.sub_diag. reflexivity.
  - eapply treps_ext_1; [exact Hrs|]. intros i Hi. apply lookup_app_l. lia.
Qed.

(** ** Path selection *)

Lemma bind_ret_r {A} (l : list A) : l ≫= (fun x => [x]) = l.
Proof. induction l as [|x l IH]; [done|]. rewrite bind_cons, IH. done. Qed.

Lemma bind_assoc_list {A B C} (l : list A) (f : A -> list B) (g : B -> list C) :
  (l ≫= f) ≫= g = l ≫= (fun x => f x ≫= g).
Proof.
  induction l as [|x l IH]; [done|]. rewrite !bind_cons, bind_app, IH. done.
Qed.

Lemma select_child_bind h ctx q :
  select_child h ctx q = ctx ≫= (fun a => select_child h [a] q).
Proof.
  unfold select_child. apply list_bind_ext; [|done]. intros a.
  rewrite bind_singleton. done.
Qed.

Lemma fold_select_bind h ps : forall ctx,
  fold_left (select_child h) ps ctx =
  ctx ≫= (fun x => fold_left (select_child h) ps [x]).
Proof.
  induction ps as [|q ps IH]; intros ctx; cbn [fold_left].
  - symmetry. apply bind_ret_r.
  - rewrite IH, (select_child_bind h ctx q), bind_assoc_list.
    apply list_bind_ext; [|done]. intros x.
    rewrite (IH (select_child h [x] q)). done.
Qed.

Lemma findall_cons h a q ps :
  findall h a (q :: ps) =
  filter (fun c => tag_is h q c = true) (kids_at h a) ≫= (fun x => findall h x ps).
Proof.
  unfold findall. cbn [fold_left]. rewrite fold_select_bind.
  unfold select_child. rewrite bind_singleton.
  unfold kids_at. destruct (h !! a); done.
Qed.

Lemma select_child_v_bind ctx q :
  select_child_v ctx q = ctx ≫= (fun e => select_child_v [e] q).
Proof.
  unfold select_child_v. apply list_bind_ext; [|done]. intros e.
  rewrite bind_singleton. done.
Qed.

Lemma fold_select_v_bind ps : forall ctx,
  fold_left select_child_v ps ctx =
  ctx ≫= (fun x => fold_left select_child_v ps [x]).
Proof.
  induction ps as [|q ps IH]; intros ctx; cbn [fold_left].
  - symmetry. apply bind_ret_r.
  - rewrite IH, (select_child_v_bind ctx q), bind_assoc_list.
    apply list_bind_ext; [|done]. intros x.
    rewrite (IH (select_child_v [x] q)). done.
Qed.

Lemma findall_v_cons e q ps :
  findall_v e (q :: ps) =
  filter (fun c => etag c = q) (ekids e) ≫= (fun k => findall_v k ps).
Proof.
  unfold findall_v. cbn [fold_left]. rewrite fold_select_v_bind.
  unfold select_child_v. rewrite bind_singleton. done.
Qed.

Lemma trep_tag h lo x k q :
  trep h lo x k -> tag_is h q x = bool_decide (etag k = q).
Proof.
  intros Hk. inversion Hk as [? ? g ats t tl xs ks Hx _]; subst.
  unfold tag_is. rewrite Hx. done.
Qed.

Lemma treps_filter h L U q lo hi xs ks :
  treps h lo hi xs ks -> L <= lo -> hi <= S U ->
  Forall2 (in_tree h L U) (filter (fun c => tag_is h q c = true) xs)
                          (filter (fun c => etag c = q) ks).
Proof.
  induction 1 as [lo|lo x hi xs k ks Hk Hs IH]; intros HL HU; [constructor|].
  pose proof (trep_le _ _ _ _ Hk). pose proof (treps_bounds _ _ _ _ _ Hs) as [Hle _].
  assert (Ht : tag_is h q x = true <-> etag k = q).
  { rewrite (trep_tag _ _ _ _ q Hk). apply bool_decide_eq_true. }
  rewrite !filter_cons. repeat case_decide; try tauto.
  - constructor; [exists lo; split; [done | lia] | apply IH; lia].
  - apply IH; lia.
Qed.

Lemma select_in_tree h L U q ctx ctxv :
  Forall2 (in_tree h L U) ctx ctxv ->
  Forall2 (in_tree h L U) (select_child h ctx q) (select_child_v ctxv q).
Proof.
  induction 1 as [|x v ctx ctxv Hxv _ IH]; [constructor|].
  unfold select_child, select_child_v. rewrite !bind_cons.
  apply Forall2_app; [|exact IH].
  destruct Hxv as (lo & Hr & HL & HU).
  inversion Hr as [? ? g ats t tl xs ks Hx Hs]; subst. rewrite Hx. simpl.
  eapply treps_filter; [exact Hs | lia | lia].
Qed.

Lemma findall_in_tree h L U a e p :
  in_tree h L U a e -> Forall2 (in_tree h L U) (findall h a p) (findall_v e p).
Proof.
  intros H. unfold findall, findall_v.
  assert (Hg : forall ctx ctxv, Forall2 (in_tree h L U) ctx ctxv ->
            Forall2 (in_tree h L U) (fold_left (select_child h) p ctx)
                                    (fold_left select_child_v p ctxv)).
  { induction p as [|q p IH]; intros ctx ctxv Hc; simpl; [done|].
    apply IH. by apply select_in_tree. }
  apply Hg. constructor; [done | constructor].
Qed.

Lemma in_tree_bounds h L U xs vs :
  Forall2 (in_tree h L U) xs vs -> Forall (fun x => L <= x <= U) xs.
Proof.
  induction 1 as [|x v xs vs (lo & Hr & HL & HU) _ IH]; constructor; [|done].
  pose proof (trep_le _ _ _ _ Hr). lia.
Qed.

Lemma findall_bounds h lo a e p :
  trep h lo a e -> Forall (fun i => lo <= i <= a) (findall h a p).
Proof.
  intros Hr. eapply in_tree_bounds, findall_in_tree.
  exists lo. split; [done | lia].
Qed.

(** The results of a selection below the children [xs] of an element lie
    in the children's range and have no duplicates. *)
Lemma treps_select_nodup h (F : nat -> list nat) (P : nat -> Prop)
    `{!forall x, Decision (P x)} :
  (forall lo x k, trep h lo x k ->
     NoDup (F x) /\ Forall (fun i => lo <= i <= x) (F x)) ->
  forall lo hi xs ks, treps h lo hi xs ks ->
  NoDup (filter P xs ≫= F) /\ Forall (fun i => lo <= i < hi) (filter P xs ≫= F).
Proof.
  intros HF. induction 1 as [lo|lo x hi xs k ks Hk Hs IH].
  - split; constructor.
  - pose proof (treps_bounds _ _ _ _ _ Hs) as [Hle _].
    pose proof (trep_le _ _ _ _ Hk).
    destruct IH as [IHn IHb]. rewrite filter_cons. case_decide.
    + rewrite bind_cons. destruct (HF _ _ _ Hk) as [Hn Hb].
      split.
      * apply NoDup_app. split; [done|]. split; [|done].
        intros i Hi Hi'. rewrite Forall_forall in Hb, IHb.
        specialize (Hb i Hi). specialize (IHb i Hi'). lia.
      * apply Forall_app. split.
        -- eapply Forall_impl; [exact Hb|]. simpl. lia.
        -- eapply Forall_impl; [exact IHb|]. simpl. lia.
    + split; [done|]. eapply Forall_impl; [exact IHb|]. simpl. lia.
Qed.

Lemma findall_nodup h p : forall lo a e, trep h lo a e -> NoDup (findall h a p).
Proof.
  induction p as [|q ps IH]; intros lo a e Hr.
  - apply NoDup_singleton.
  - rewrite findall_cons. inversion Hr as [? ? g ats t tl xs ks Ha Hs]; subst.
    unfold kids_at. rewrite Ha. simpl.
    eapply treps_select_nodup; [|exact Hs].
    intros lo' x k Hk. split; [eapply IH; exact Hk|].
    eapply findall_bounds. exact Hk.
Qed.

(** ** Reading the copy after the appends *)

Lemma not_in_bounded (l : list nat) i lo hi :
  Forall (fun j => lo <= j < hi) l -> ~ (lo <= i < hi) -> i ∉ l.
Proof. intros Hb Hi Hin. rewrite Forall_forall in Hb. apply Hi, Hb, Hin. Qed.

(** If the nodes of [findall h a p] (and only those) in the range of the
    element at [a] got the addresses [fs] appended to their children, the
    element at [a] reads as [graft_at p frag e]. *)
Lemma graft_reads h h3 fs frag p : forall lo a e,
  trep h lo a e ->
  (forall i, lo <= i <= a ->
     h3 !! i = if bool_decide (i ∈ findall h a p)
               then (fun n => grow n fs) <$> h !! i else h !! i) ->
  reads_list h3 fs frag ->
  reads h3 a (graft_at p frag e).
Proof.
  induction p as [|q ps IH]; intros lo a e Hr Hag Hfs.
  - inversion Hr as [? ? g ats t tl xs ks Ha Hs]; subst.
    pose proof (proj1 (treps_bounds _ _ _ _ _ Hs)).
    assert (H3a : h3 !! a = Some (Node g ats t tl (xs ++ fs))).
    { rewrite Hag by lia. rewrite bool_decide_eq_true_2;
        [|unfold findall; simpl; by apply list_elem_of_singleton].
      rewrite Ha. done. }
    simpl. eapply reads_node; [exact H3a|]. apply reads_list_app; [|done].
    eapply treps_reads_ext; [exact Hs|]. intros i Hi. rewrite Hag by lia.
    rewrite bool_decide_eq_false_2; [done|].
    unfold findall; simpl. rewrite list_elem_of_singleton. lia.
  - inversion Hr as [? ? g ats t tl xs ks Ha Hs]; subst.
    set (F := fun x => findall h x ps).
    set (P := fun c => tag_is h q c = true).
    assert (HF : forall lo' x k, trep h lo' x k ->
              NoDup (F x) /\ Forall (fun i => lo' <= i <= x) (F x)).
    { intros lo' x k Hk. split; [eapply findall_nodup; exact Hk|].
      eapply findall_bounds. exact Hk. }
    assert (HX : findall h a (q :: ps) = filter P xs ≫= F).
    { rewrite findall_cons. unfold kids_at. rewrite Ha. done. }
    rewrite HX in Hag. clear HX.
    destruct (treps_select_nodup h F P HF _ _ _ _ Hs) as [_ HXb].
    assert (H3a : h3 !! a = Some (Node g ats t tl xs)).
    { rewrite Hag by (pose proof (proj1 (treps_bounds _ _ _ _ _ Hs)); lia).
      rewrite bool_decide_eq_false_2; [done|].
      eapply not_in_bounded; [exact HXb | lia]. }
    simpl. eapply reads_node; [exact H3a|].
    assert (Hgen : forall lo hi xs ks, treps h lo hi xs ks ->
              (forall i, lo <= i < hi ->
                 h3 !! i = if bool_decide (i ∈ filter P xs ≫= F)
                           then (fun n => grow n fs) <$> h !! i else h !! i) ->
              reads_list h3 xs
                (map (fun k => if bool_decide (etag k = q)
                               then graft_at ps frag k else k) ks)).
    { clear dependent xs. clear dependent ks.
      induction 1 as [lo'|lo' x hi xs k ks Hk Hs IHs]; intros Hag'.
      - apply reads_list_nil.
      - destruct (treps_select_nodup h F P HF _ _ _ _ Hs) as [_ Hrest].
        destruct (HF _ _ _ Hk) as [_ HFx].
        pose proof (proj1 (treps_bounds _ _ _ _ _ Hs)).
        pose proof (trep_le _ _ _ _ Hk).
        assert (HPx : P x <-> etag k = q).
        { unfold P. rewrite (trep_tag _ _ _ _ q Hk). apply bool_decide_eq_true. }
        rewrite filter_cons in Hag'. simpl map. apply reads_list_cons.
        + case_decide as HPd.
          * rewrite bool_decide_eq_true_2 by tauto.
            eapply IH; [exact Hk| |exact Hfs]. intros i Hi.
            rewrite Hag' by lia.
            erewrite (bool_decide_ext _ (i ∈ F x)); [reflexivity|].
            rewrite bind_cons, elem_of_app. split; [|by left].
            intros [Hin|Hin]; [done|]. exfalso.
            eapply not_in_bounded; [exact Hrest | | exact Hin]. lia.
          * rewrite bool_decide_eq_false_2 by tauto.
            eapply trep_reads_ext; [exact Hk|]. intros i Hi.
            rewrite Hag' by lia. rewrite bool_decide_eq_false_2; [done|].
            eapply not_in_bounded; [exact Hrest | lia].
        + apply IHs. intros i Hi. rewrite Hag' by lia.
          erewrite (bool_decide_ext _ (i ∈ filter P xs ≫= F)); [reflexivity|].
          case_decide; [|done].
          rewrite bind_cons, elem_of_app. split; [|by right].
          intros [Hin|Hin]; [|done]. exfalso.
          rewrite Forall_forall in HFx. specialize (HFx i Hin). lia. }
    eapply Hgen; [exact Hs|]. intros i Hi. apply Hag. lia.
Qed.

(** On values: the texture units of the graft are the original ones with
    [frag] appended, in the same order. *)
Lemma etag_graft_at p frag e : etag (graft_at p frag e) = etag e.
Proof. destruct e, p; done. Qed.

Lemma findall_v_graft_at p frag : forall e,
  findall_v (graft_at p frag e) p = map (append_kids frag) (findall_v e p).
Proof.
  induction p as [|q ps IH]; intros [g ats t tl ks].
  - done.
  - rewrite !findall_v_cons. simpl ekids.
    induction ks as [|k ks IHks]; [done|]. simpl map.
    destruct (decide (etag k = q)) as [Hq|Hq].
    + rewrite bool_decide_eq_true_2 by done.
      rewrite !filter_cons, etag_graft_at, !decide_True by done.
      rewrite !bind_cons, map_app, IH, IHks. done.
    + rewrite bool_decide_eq_false_2 by done.
      rewrite !filter_cons, !decide_False by done. exact IHks.
Qed.

(** ** Running [with_tc_info_from] *)

Lemma bind_ok {A B} (m : M A) (k : A -> M B) s a s' :
  m s = (Ok a, s') -> (m ≫= k) s = k a s'.
Proof. intros H. unfold mbind, M_bind. rewrite H. done. Qed.

Lemma bind_raise {A B} (m : M A) (k : A -> M B) s e s' :
  m s = (Raise e, s') -> (m ≫= k) s = (Raise e, s').
Proof. intros H. unfold mbind, M_bind. rewrite H. done. Qed.

Lemma read_prefix f : forall h h' a e,
  read f h a = Some e -> (forall i, i < length h -> h' !! i = h !! i) ->
  read f h' a = Some e.
Proof.
  induction f as [|f IH]; intros h h' a e Hr Hp; [discriminate|].
  simpl in *. destruct (h !! a) as [n|] eqn:Ha; [|discriminate].
  rewrite Hp by (eapply lookup_lt_Some; exact Ha). rewrite Ha.
  destruct (mapM (read f h) (nkids n)) as [ks|] eqn:Hk; [|discriminate].
  rewrite (mapM_Some_2 _ _ ks); [exact Hr|].
  apply mapM_Some_1 in Hk. eapply Forall2_impl; [exact Hk|].
  intros x y Hxy. eapply IH; [exact Hxy|exact Hp].
Qed.

Lemma append_loop tx fs : forall s n,
  heap s !! tx = Some n ->
  for_each fs (fun tc_entry =>
    h ← get_heap; put_heap (append_child h tx tc_entry)) s =
  (Ok tt, St (<[tx := grow n fs]> (heap s)) (logs s) (files s)).
Proof.
  induction fs as [|c fs IH]; intros [h lg fl] n Hn; simpl in Hn.
  - simpl. unfold grow. rewrite app_nil_r. destruct n as [g ats t tl ks]. simpl.
    rewrite list_insert_id by exact Hn. done.
  - assert (Happ : append_child h tx c = <[tx := grow n [c]]> h).
    { unfold append_child. rewrite Hn. done. }
    assert (Hbody : (h' ← get_heap; put_heap (append_child h' tx c)) (St h lg fl)
                    = (Ok tt, St (append_child h tx c) lg fl)) by reflexivity.
    cbn [for_each]. erewrite bind_ok; [|exact Hbody].
    rewrite Happ. rewrite (IH _ (grow n [c])); simpl.
    + rewrite list_insert_insert_eq. unfold grow. simpl.
      rewrite <- app_assoc. done.
    + apply list_lookup_insert_eq. eapply lookup_lt_Some. exact Hn.
Qed.

Lemma texunit_loop u : forall txs s,
  NoDup txs -> u ∉ txs -> Forall (fun tx => is_Some (heap s !! tx)) txs ->
  exists h3,
    for_each txs (fun texunit =>
      h ← get_heap;
      for_each (kids_at h u) (fun tc_entry =>
        h ← get_heap; put_heap (append_child h texunit tc_entry))) s
    = (Ok tt, St h3 (logs s) (files s)) /\
    forall i, h3 !! i = if bool_decide (i ∈ txs)
                        then (fun n => grow n (kids_at (heap s) u)) <$> heap s !! i
                        else heap s !! i.
Proof.
  induction txs as [|tx txs IH]; intros [h lg fl] Hnd Hu Hs;
    cbn [heap logs files] in *.
  - exists h. split; [done|]. intros i.
    case_bool_decide as Hi; [|done]. by apply not_elem_of_nil in Hi.
  - apply NoDup_cons in Hnd as [Htx Hnd].
    apply not_elem_of_cons in Hu as [Hutx Hu].
    apply Forall_cons in Hs as [[n Hn] Hs].
    set (h' := <[tx := grow n (kids_at h u)]> h).
    assert (Hbody : (h ← get_heap;
              for_each (kids_at h u) (fun tc_entry =>
                h ← get_heap; put_heap (append_child h tx tc_entry)))
              (St h lg fl) = (Ok tt, St h' lg fl)).
    { cbn. apply (append_loop tx (kids_at h u) (St h lg fl)). exact Hn. }
    assert (Hku : kids_at h' u = kids_at h u).
    { unfold kids_at, h'. rewrite list_lookup_insert_ne; [done | congruence]. }
    destruct (IH (St h' lg fl)) as [h3 [Hrun Hh3]]; [done|done| |].
    { simpl. eapply Forall_impl; [exact Hs|]. intros x Hx.
      unfold h'. by apply list_lookup_insert_is_Some. }
    exists h3. split.
    + cbn [for_each]. erewrite bind_ok; [|exact Hbody]. exact Hrun.
    + intros i. rewrite Hh3. simpl. rewrite Hku.
      destruct (decide (i = tx)) as [->|Hne].
      * rewrite (bool_decide_eq_false_2 (tx ∈ txs)) by done.
        rewrite bool_decide_eq_true_2 by (apply elem_of_cons; left; done).
        unfold h'. rewrite list_lookup_insert_eq by (eapply lookup_lt_Some; exact Hn).
        rewrite Hn. done.
      * unfold h'. rewrite list_lookup_insert_ne by congruence.
        erewrite (bool_decide_ext (i ∈ tx :: txs) (i ∈ txs)); [done|].
        rewrite elem_of_cons. naive_solver.
Qed.

Lemma find_in_tree h L U a e p :
  in_tree h L U a e ->
  (find h a p = None /\ find_v e p = None) \/
  exists u uv, find h a p = Some u /\ find_v e p = Some uv /\ in_tree h L U u uv.
Proof.
  intros H. pose proof (findall_in_tree h L U a e p H) as HF.
  unfold find, find_v.
  remember (findall h a p) as l1. remember (findall_v e p) as l2.
  destruct HF; [left | right]; simpl; eauto.
Qed.

Lemma deepcopy_ok lim m s tm h1 r :
  read lim (heap s) m = Some tm -> alloc (heap s) tm = (h1, r) ->
  deepcopy lim m s = (Ok r, St h1 (logs s) (files s)).
Proof.
  intros Hm Ha. unfold deepcopy, mbind, M_bind, get_heap. simpl.
  rewrite Hm, Ha. done.
Qed.

Lemma deepcopy_fail lim m s :
  read lim (heap s) m = None -> deepcopy lim m s = (Raise RecursionError, s).
Proof. intros Hm. unfold deepcopy, mbind, M_bind, get_heap. simpl. by rewrite Hm. Qed.

Lemma et_parse_ok w tf s T h2 tr :
  w_parse w tf = Some T -> alloc (heap s) T = (h2, tr) ->
  et_parse w tf s = (Ok tr, St h2 (logs s) (files s)).
Proof.
  intros HT Ha. unfold et_parse. rewrite HT. unfold mbind, M_bind, get_heap. simpl.
  rewrite Ha. done.
Qed.

Lemma et_parse_fail w tf s :
  w_parse w tf = None -> et_parse w tf s = (Raise (parse_exn (w_parse_failure w tf)), s).
Proof. intros HT. unfold et_parse. by rewrite HT. Qed.

Lemma graft_at_nil p : forall e, graft_at p [] e = e.
Proof.
  induction p as [|q ps IH]; intros [g ats t tl ks]; simpl.
  - by rewrite app_nil_r.
  - f_equal. rewrite <- (map_id ks) at 2. apply map_ext. intros k.
    case_bool_decide; auto.
Qed.

(** The heap before the loop of [with_tc_info_from]: the copy of [tm] at
    [r] over [lo..r], the parsed template after it. *)
Lemma with_tc_info_from_setup w lim tf m s tm T :
  read lim (heap s) m = Some tm -> w_parse w tf = Some T ->
  exists h2 r tr,
    (with_tc_info_from w lim tf m s =
      (for_each (findall h2 r texunit_path) (fun texunit =>
         match find h2 tr texunit_path with
         | None => throw TypeError
         | Some u =>
             h ← get_heap;
             for_each (kids_at h u) (fun tc_entry =>
               h ← get_heap; put_heap (append_child h texunit tc_entry))
         end) ;; mret r) (St h2 (logs s) (files s))) /\
    (exists nw, h2 = heap s ++ nw) /\
    trep h2 (length (heap s)) r tm /\ S r < length h2 /\
    in_tree h2 (S r) (length h2) tr T.
Proof.
  intros Hm HT. destruct s as [h0 lg fl]. simpl in *.
  destruct (alloc h0 tm) as [h1 r] eqn:E1.
  destruct (alloc h1 T) as [h2 tr] eqn:E2.
  destruct (alloc_spec _ _ _ _ E1) as [[n1 ->] [Hr1 Ht1]].
  destruct (alloc_spec _ _ _ _ E2) as [[n2 ->] [Hr2 Ht2]].
  exists ((h0 ++ n1) ++ n2), r, tr. split; [|split; [|split; [|split]]].
  - unfold with_tc_info_from.
    erewrite bind_ok; [|apply (deepcopy_ok lim m (St h0 lg fl) tm); [exact Hm|exact E1]].
    simpl.
    erewrite bind_ok; [|apply (et_parse_ok w tf (St (h0 ++ n1) lg fl) T); [exact HT|exact E2]].
    simpl. unfold mbind at 1, M_bind at 1, get_heap at 1. simpl. reflexivity.
  - exists (n1 ++ n2). by rewrite app_assoc.
  - eapply trep_ext_1; [exact Ht1|]. intros i Hi. apply lookup_app_l. lia.
  - pose proof (trep_le _ _ _ _ Ht2). rewrite length_app in *. lia.
  - exists (length (h0 ++ n1)). split; [exact Ht2|]. lia.
Qed.

Lemma with_tc_info_from_run w lim tf m s tm T :
  read lim (heap s) m = Some tm -> w_parse w tf = Some T ->
  (find_v T texunit_path = None -> findall_v tm texunit_path = []) ->
  exists r h3,
    with_tc_info_from w lim tf m s = (Ok r, St h3 (logs s) (files s)) /\
    (forall i, i < length (heap s) -> h3 !! i = heap s !! i) /\
    reads h3 r (graft_at texunit_path (frag_of T) tm).
Proof.
  intros Hm HT HN.
  destruct (with_tc_info_from_setup w lim tf m s tm T Hm HT)
    as (h2 & r & tr & Hrun & [nw Hh2] & Ht1 & Hlen & Hin2).
  assert (Hsel1 : Forall2 (in_tree h2 (length (heap s)) r)
                    (findall h2 r texunit_path) (findall_v tm texunit_path)).
  { apply findall_in_tree. exists (length (heap s)). split; [exact Ht1 | lia]. }
  pose proof (findall_bounds _ _ _ _ texunit_path Ht1) as Hb1.
  rewrite Forall_forall in Hb1.
  pose proof (findall_nodup h2 texunit_path _ _ _ Ht1) as Hnd1.
  assert (Hpre : forall i, i < length (heap s) -> h2 !! i = heap s !! i).
  { intros i Hi. subst h2. by apply lookup_app_l. }
  clear Hh2 nw. unfold frag_of.
  destruct (find_in_tree _ _ _ _ _ texunit_path Hin2)
    as [[Hf Hfv] | (u & uv & Hf & Hfv & Hu)].
  - rewrite Hfv. specialize (HN Hfv). rewrite HN in Hsel1.
    apply Forall2_nil_inv_r in Hsel1.
    exists r, h2. rewrite Hrun, Hsel1. split; [reflexivity|]. split; [exact Hpre|].
    rewrite graft_at_nil. eapply trep_reads_ext; [exact Ht1|]. done.
  - rewrite Hfv. destruct Hu as (lo_u & Htu & Hlo & Hule).
    inversion Htu as [? ? g ats t tl xs ks Hua Hus]; subst. simpl.
    pose proof (trep_le _ _ _ _ Htu) as Hlu.
    assert (Hkids : kids_at h2 u = xs) by (unfold kids_at; by rewrite Hua).
    destruct (texunit_loop u (findall h2 r texunit_path) (St h2 (logs s) (files s)))
      as [h3 [Hloop Hh3]].
    + exact Hnd1.
    + intros Hin. specialize (Hb1 _ Hin). lia.
    + apply Forall_forall. intros x Hx. specialize (Hb1 _ Hx).
      apply lookup_lt_is_Some_2. simpl. lia.
    + simpl in Hh3. rewrite Hkids in Hh3.
      assert (Hout : forall i, r < i -> h3 !! i = h2 !! i).
      { intros i Hi. rewrite Hh3. rewrite bool_decide_eq_false_2; [done|].
        intros Hin. specialize (Hb1 _ Hin). lia. }
      exists r, h3. split; [|split].
      * rewrite Hrun, Hf. erewrite bind_ok; [|exact Hloop]. reflexivity.
      * intros i Hi. rewrite Hh3. rewrite bool_decide_eq_false_2; [by apply Hpre|].
        intros Hin. specialize (Hb1 _ Hin). lia.
      * eapply (graft_reads h2 h3 xs ks texunit_path _ r tm Ht1).
        -- intros i _. apply Hh3.
        -- eapply treps_reads_ext; [exact Hus|]. intros i Hi. apply Hout. lia.
Qed.

Lemma with_tc_info_from_raise w lim tf m s tm T :
  read lim (heap s) m = Some tm -> w_parse w tf = Some T ->
  find_v T texunit_path = None -> findall_v tm texunit_path <> [] ->
  fst (with_tc_info_from w lim tf m s) = Raise TypeError.
Proof.
  intros Hm HT HfvN Hne.
  destruct (with_tc_info_from_setup w lim tf m s tm T Hm HT)
    as (h2 & r & tr & Hrun & _ & Ht1 & Hlen & Hin2).
  assert (Hsel1 : Forall2 (in_tree h2 (length (heap s)) r)
                    (findall h2 r texunit_path) (findall_v tm texunit_path)).
  { apply findall_in_tree. exists (length (heap s)). split; [exact Ht1 | lia]. }
  destruct (find_in_tree _ _ _ _ _ texunit_path Hin2)
    as [[Hf _] | (u & uv & _ & Hfv & _)]; [|congruence].
  destruct (findall h2 r texunit_path) as [|x xs] eqn:Hx.
  - apply Forall2_nil_inv_l in Hsel1. congruence.
  - rewrite Hrun, Hf. reflexivity.
Qed.

Lemma with_tc_info_from_ok_inv w lim tf m s r s' :
  with_tc_info_from w lim tf m s = (Ok r, s') ->
  exists tm T, read lim (heap s) m = Some tm /\ w_parse w tf = Some T /\
    (find_v T texunit_path = None -> findall_v tm texunit_path = []).
Proof.
  intros H.
  destruct (read lim (heap s) m) as [tm|] eqn:Hm.
  2:{ unfold with_tc_info_from in H.
      rewrite (bind_raise _ _ _ _ _ (deepcopy_fail _ _ _ Hm)) in H. discriminate. }
  destruct (w_parse w tf) as [T|] eqn:HT.
  2:{ destruct (alloc (heap s) tm) as [h1 a1] eqn:E1. unfold with_tc_info_from in H.
      rewrite (bind_ok _ _ _ _ _ (deepcopy_ok _ _ _ _ _ _ Hm E1)) in H. cbv beta in H.
      rewrite (bind_raise _ _ _ _ _ (et_parse_fail w tf _ HT)) in H. discriminate. }
  exists tm, T. split; [done|]. split; [done|]. intros Hfv.
  destruct (findall_v tm texunit_path) as [|v vs] eqn:E; [done|]. exfalso.
  assert (Hr : fst (with_tc_info_from w lim tf m s) = Raise TypeError).
  { apply (with_tc_info_from_raise w lim tf m s tm T Hm HT Hfv). by rewrite E. }
  rewrite H in Hr. discriminate.
Qed.

(** ** [str.replace] *)

Lemma append_cons c l s : String.append (String c l) s = String c (String.append l s).
Proof. reflexivity. Qed.

Lemma append_nil_l s : String.append "" s = s.
Proof. reflexivity. Qed.

Lemma replace_aux_skip old new x s :
  replace_aux old new (String.length x) (String.append x s) = replace_aux old new 0 s.
Proof. induction x as [|c x IH]; [done|]. rewrite append_cons. exact IH. Qed.

Lemma prefix_empty s : String.prefix "" s = true.
Proof. by destruct s. Qed.

Lemma prefix_cons_eq a s1 s2 :
  String.prefix (String a s1) (String a s2) = String.prefix s1 s2.
Proof. cbn [String.prefix]. destruct (ascii_dec a a); congruence. Qed.

Lemma prefix_cons_ne a b s1 s2 :
  a <> b -> String.prefix (String a s1) (String b s2) = false.
Proof. intros Hne. cbn [String.prefix]. destruct (ascii_dec a b); congruence. Qed.

Lemma prefix_refl_app k s : String.prefix k (String.append k s) = true.
Proof.
  induction k as [|c k IH]; [apply prefix_empty|].
  rewrite append_cons, prefix_cons_eq. exact IH.
Qed.

Lemma prefix_app_cases a b s :
  String.prefix a (String.append b s) = true ->
  String.prefix a b = true \/ String.prefix b a = true.
Proof.
  revert b. induction a as [|x a IH]; intros b H; [left; apply prefix_empty|].
  destruct b as [|y b]; [right; apply prefix_empty|].
  rewrite append_cons in H. destruct (ascii_dec x y) as [->|Hne].
  - rewrite prefix_cons_eq in H |- *. rewrite prefix_cons_eq. apply IH. exact H.
  - rewrite prefix_cons_ne in H by exact Hne. discriminate.
Qed.

Lemma token_shaped_inv k :
  token_shaped k = true -> exists b, k = String "{" b /\ brace_free b = true.
Proof.
  destruct k as [|c b]; [discriminate|]. simpl. intros H.
  apply andb_prop in H as [Hc Hb]. apply Ascii.eqb_eq in Hc. subst. eauto.
Qed.

Lemma replace_aux_lit old new l s :
  token_shaped old = true -> brace_free l = true ->
  replace_aux old new 0 (String.append l s) = String.append l (replace_aux old new 0 s).
Proof.
  intros Ho. destruct (token_shaped_inv _ Ho) as [b [-> _]].
  induction l as [|c l IH]; intros Hl; [done|]. cbn [brace_free] in Hl.
  apply andb_prop in Hl as [Hc Hl]. rewrite !append_cons. cbn [replace_aux].
  rewrite prefix_cons_ne.
  - rewrite IH by exact Hl. done.
  - intros <-. done.
Qed.

Lemma replace_aux_tok_eq old new s :
  token_shaped old = true ->
  replace_aux old new 0 (String.append old s) = String.append new (replace_aux old new 0 s).
Proof.
  intros Ho. destruct (token_shaped_inv _ Ho) as [b [-> _]].
  rewrite append_cons. cbn [replace_aux]. rewrite prefix_cons_eq, prefix_refl_app.
  f_equal. cbn [String.length]. rewrite Nat.sub_succ, Nat.sub_0_r. apply replace_aux_skip.
Qed.

Lemma replace_aux_tok_ne old new k s :
  token_shaped old = true -> token_shaped k = true ->
  String.prefix old k = false -> String.prefix k old = false ->
  replace_aux old new 0 (String.append k s) = String.append k (replace_aux old new 0 s).
Proof.
  intros Ho Hk H1 H2.
  destruct (String.prefix old (String.append k s)) eqn:Hp.
  { destruct (prefix_app_cases _ _ _ Hp); congruence. }
  destruct (token_shaped_inv _ Hk) as [b [-> Hb]].
  rewrite append_cons in Hp |- *. cbn [replace_aux]. rewrite Hp, append_cons. f_equal.
  apply replace_aux_lit; done.
Qed.

(** A text with no occurrence of [old] is left as it is. *)
Lemma py_replace_absent s old new : occurs old s = false -> py_replace s old new = s.
Proof.
  intros H. unfold py_replace.
  destruct (String.eqb old "") eqn:He.
  { apply String.eqb_eq in He. subst. destruct s; simpl in H; discriminate. }
  clear He. induction s as [|c s IH]; [done|].
  simpl in H. apply orb_false_iff in H as [Hp H].
  simpl. rewrite Hp. f_equal. exact (IH H).
Qed.

(** ** Placeholder substitution over a text of literals and tokens *)

Lemma segment_ok_cons kv d sg :
  segment_ok (kv :: d) sg = segment_ok [kv] sg && segment_ok d sg.
Proof.
  destruct sg as [l|k]; simpl.
  - by destruct (brace_free l).
  - destruct (token_shaped k), (String.eqb k kv.1 || _), (forallb _ d); done.
Qed.

Lemma py_replace_render k v segs :
  entry_ok (k, v) = true -> forallb (segment_ok [(k, v)]) segs = true ->
  py_replace (render segs) k v = render (map (resolve [(k, v)]) segs).
Proof.
  intros Hkv Hs. apply andb_prop in Hkv as [Hk Hv]. simpl in Hk, Hv.
  unfold py_replace.
  destruct (String.eqb k "") eqn:He.
  { apply String.eqb_eq in He. subst. discriminate. }
  induction segs as [|[l|k'] segs IH]; [done| |]; simpl in Hs |- *;
    apply andb_prop in Hs as [H1 Hs].
  - rewrite replace_aux_lit by done. rewrite IH by exact Hs. done.
  - apply andb_prop in H1 as [Hk' H1]. rewrite andb_true_r in H1.
    destruct (String.eqb k' k) eqn:Hkk.
    + apply String.eqb_eq in Hkk. subst k'.
      rewrite replace_aux_tok_eq by done. rewrite IH by exact Hs. done.
    + apply negb_true_iff in H1. apply orb_false_iff in H1 as [H1 H2].
      rewrite replace_aux_tok_ne by done. rewrite IH by exact Hs. done.
Qed.

Lemma resolve_nil sg : resolve [] sg = sg.
Proof. by destruct sg. Qed.

Lemma apply_replacements_render d : forall segs,
  forallb entry_ok d = true -> forallb (segment_ok d) segs = true ->
  apply_replacements (render segs) d = render (map (resolve d) segs).
Proof.
  induction d as [|[k v] d IH]; intros segs Hd Hs.
  - unfold apply_replacements. simpl. f_equal. symmetry.
    rewrite <- (map_id segs) at 2. apply map_ext. apply resolve_nil.
  - simpl in Hd. apply andb_prop in Hd as [Hkv Hd].
    assert (Hs1 : forallb (segment_ok [(k, v)]) segs = true /\
                  forallb (segment_ok d) segs = true).
    { rewrite forallb_forall in Hs.
      split; apply forallb_forall; intros sg Hin; specialize (Hs sg Hin);
        rewrite segment_ok_cons in Hs; apply andb_prop in Hs; tauto. }
    destruct Hs1 as [Hs1 Hs2].
    unfold apply_replacements. simpl. fold (apply_replacements (py_replace (render segs) k v) d).
    rewrite py_replace_render by done. rewrite IH; [|done|].
    2:{ rewrite forallb_forall in Hs2 |- *. intros sg' Hin.
        apply in_map_iff in Hin as (sg & <- & Hin). specialize (Hs2 sg Hin).
        destruct sg as [l|k']; simpl; [done|].
        destruct (String.eqb k' k); [apply andb_prop in Hkv; tauto | exact Hs2]. }
    rewrite map_map. f_equal. apply map_ext. intros [l|k']; [done|]. simpl.
    destruct (String.eqb k' k); done.
Qed.

Lemma dict_get_perm d1 d2 k :
  NoDup (map fst d1) -> d1 ≡ₚ d2 -> dict_get d1 k = dict_get d2 k.
Proof.
  intros Hnd Hp. revert Hnd. induction Hp as [|[k1 v1] l1 l2 Hp IH|[k1 v1] [k2 v2] l|l1 l2 l3 H12 IH12 H23 IH23];
    intros Hnd; simpl in *.
  - done.
  - apply NoDup_cons in Hnd as [_ Hnd]. rewrite IH by exact Hnd. done.
  - apply NoDup_cons in Hnd as [Hn _]. rewrite elem_of_cons in Hn.
    destruct (String.eqb k k2) eqn:E2, (String.eqb k k1) eqn:E1; try done.
    apply String.eqb_eq in E1, E2. subst. naive_solver.
  - rewrite IH12 by exact Hnd. apply IH23.
    apply (NoDup_Permutation_proper _ _ (Permutation_map fst H12)). exact Hnd.
Qed.

Lemma forallb_perm {A} (f : A -> bool) l1 l2 : l1 ≡ₚ l2 -> forallb f l1 = forallb f l2.
Proof.
  induction 1; simpl; try congruence.
  destruct (f x), (f y); done.
Qed.

Lemma segment_ok_perm d1 d2 sg : d1 ≡ₚ d2 -> segment_ok d1 sg = segment_ok d2 sg.
Proof. intros Hp. destruct sg; simpl; [done|]. f_equal. by apply forallb_perm. Qed.

Lemma with_applied_placeholders_read w tf d s c :
  w_read w tf = Some c ->
  with_applied_placeholders w tf d s = (Ok (apply_replacements c d), s).
Proof. intros Hr. unfold with_applied_placeholders, read_content_of. rewrite Hr. done. Qed.

Lemma map_resolve_perm d1 d2 segs :
  NoDup (map fst d1) -> d1 ≡ₚ d2 -> map (resolve d2) segs = map (resolve d1) segs.
Proof.
  intros Hnd Hp. apply map_ext. intros [l|k]; [done|]. simpl.
  by rewrite (dict_get_perm d1 d2 k Hnd Hp).
Qed.

(** Substitution with a dict of distinct keys depends on its entries only,
    not on their order. *)
Lemma with_applied_placeholders_segments w tf segs d1 d2 s :
  w_read w tf = Some (render segs) ->
  NoDup (map fst d1) -> d1 ≡ₚ d2 ->
  forallb entry_ok d1 = true -> forallb (segment_ok d1) segs = true ->
  with_applied_placeholders w tf d2 s = (Ok (render (map (resolve d1) segs)), s).
Proof.
  intros Hr Hnd Hp Hd Hs. rewrite (with_applied_placeholders_read w tf d2 s _ Hr).
  rewrite apply_replacements_render.
  - by rewrite (map_resolve_perm d1 d2 segs Hnd Hp).
  - by rewrite <- (forallb_perm entry_ok d1 d2 Hp).
  - rewrite <- Hs. clear Hs Hr Hd. induction segs as [|sg segs IH]; [done|]. simpl.
    rewrite IH, (segment_ok_perm d1 d2 sg Hp). done.
Qed.

(** ** Path names *)

Lemma name_snoc a xs nm : name (Path a (xs ++ [nm])) = nm.
Proof. unfold name. simpl. by rewrite last_snoc. Qed.

Lemma removelast_snoc {A} (xs : list A) x : removelast (xs ++ [x]) = xs.
Proof. induction xs as [|y xs IH]; [done|]. simpl. rewrite IH. by destruct xs. Qed.

Lemma substring_length n m s :
  n + m <= String.length s -> String.length (substring n m s) = m.
Proof.
  revert n m. induction s as [|c s IH]; intros n m H.
  - simpl in H. assert (n = 0) as -> by lia. assert (m = 0) as -> by lia. done.
  - destruct n as [|n]; simpl in *.
    + destruct m as [|m]; [done|]. simpl. f_equal. apply IH. lia.
    + apply IH. lia.
Qed.

Lemma has_slash_append a b : has_slash (String.append a b) = has_slash a || has_slash b.
Proof. induction a as [|c a IH]; [done|]. rewrite append_cons. simpl. by rewrite IH, orb_assoc. Qed.

Lemma has_slash_substring n m s : has_slash s = false -> has_slash (substring n m s) = false.
Proof.
  revert n m. induction s as [|c s IH]; intros n m H; [by destruct n, m|].
  simpl in H. apply orb_false_iff in H as [Hc H].
  destruct n as [|n]; simpl.
  - destruct m as [|m]; [done|]. simpl. by rewrite Hc, IH.
  - by apply IH.
Qed.

Lemma has_slash_name_stem nm : has_slash nm = false -> has_slash (name_stem nm) = false.
Proof.
  intros H. unfold name_stem.
  destruct (rindex_dot nm); [|done]. destruct (_ && _); [|done].
  by apply has_slash_substring.
Qed.

(** Dropping the suffix keeps the stem: [name[:-len(old_suffix)]] is
    [stem]. *)
Lemma name_suffix_stem nm :
  (if String.eqb (name_suffix nm) "" then nm
   else substring 0 (String.length nm - String.length (name_suffix nm)) nm)
  = name_stem nm.
Proof.
  unfold name_suffix, name_stem.
  destruct (rindex_dot nm) as [i|]; [|done].
  destruct (Nat.ltb 0 i && Nat.ltb i (String.length nm - 1)) eqn:Hc; [|done].
  apply andb_prop in Hc as [H1 H2]. apply Nat.ltb_lt in H1, H2.
  rewrite substring_length by lia.
  destruct (String.eqb _ "") eqn:He.
  - apply String.eqb_eq in He.
    assert (Hl : String.length (substring i (String.length nm - i) nm) = String.length nm - i)
      by (apply substring_length; lia).
    rewrite He in Hl. simpl in Hl. lia.
  - f_equal. lia.
Qed.

Lemma split_slash_plain s : has_slash s = false -> split_slash s = [s].
Proof.
  induction s as [|c s IH]; intros H; [done|].
  simpl in H. apply orb_false_iff in H as [Hc H]. simpl. rewrite Hc, IH by exact H. done.
Qed.

(** A name with no ['/'] is parsed into one component. *)
Lemma parse_path_plain s :
  has_slash s = false -> s <> "" -> s <> "." -> parse_path s = Path "" [s].
Proof.
  intros Hs Hne Hdot. unfold parse_path. rewrite split_slash_plain by exact Hs.
  f_equal.
  - destruct s as [|c s]; [done|]. simpl in Hs. apply orb_false_iff in Hs as [Hc _].
    unfold root_of. rewrite prefix_cons_ne; [done|]. intros <-. done.
  - rewrite filter_cons. rewrite decide_True by done. done.
Qed.

Lemma append_dot_suffix a sfx :
  String.prefix "." sfx = true -> sfx <> "." ->
  String.append a sfx <> "" /\ String.append a sfx <> ".".
Proof.
  intros Hp Hd. destruct sfx as [|c [|c' r]]; [discriminate| |].
  - cbn [String.prefix] in Hp. destruct (ascii_dec "." c) as [<-|]; [done|discriminate].
  - destruct a as [|x a]; rewrite ?append_cons, ?append_nil_l; [done|].
    split; [done|]. intros [= _ H]. destruct a; discriminate H.
Qed.

(** [transform_to_dst_file] when no [ValueError] is raised: the new name
    is the stem of the replaced name followed by [sfx], inside [dst]. *)
Lemma transform_to_dst_file_ok tf tok rep sfx dst :
  name tf <> "" ->
  py_replace (name tf) tok rep <> "" ->
  has_slash (py_replace (name tf) tok rep) = false ->
  py_replace (name tf) tok rep <> "." ->
  has_slash sfx = false -> String.prefix "." sfx = true -> sfx <> "." ->
  transform_to_dst_file tf tok rep sfx dst =
    Ok (Path (root dst)
          (comps dst ++ [String.append (name_stem (py_replace (name tf) tok rep)) sfx])).
Proof.
  intros Hn Hne Hsl Hdot Hs1 Hs2 Hs3.
  set (nm := py_replace (name tf) tok rep) in *.
  unfold transform_to_dst_file, with_name. fold nm.
  rewrite (proj2 (String.eqb_neq _ _) Hn), (proj2 (String.eqb_neq _ _) Hne), Hsl,
    (proj2 (String.eqb_neq _ _) Hdot). simpl.
  unfold with_suffix. rewrite Hs1, Hs2. simpl.
  assert (Hsd : String.eqb sfx "." = false) by (by apply String.eqb_neq).
  rewrite Hsd. unfold suffix. rewrite !name_snoc.
  rewrite (proj2 (String.eqb_neq _ _) Hne).
  assert (Hnm : (if String.eqb (name_suffix nm) "" then String.append nm sfx
                 else String.append (substring 0 (String.length nm - String.length (name_suffix nm)) nm) sfx)
                = String.append (name_stem nm) sfx).
  { rewrite <- name_suffix_stem. by destruct (String.eqb (name_suffix nm) ""). }
  rewrite Hnm, andb_false_r. cbv iota beta. cbn [orb]. unfold last_part. cbn [comps root]. rewrite last_snoc.
  destruct (append_dot_suffix (name_stem nm) sfx Hs2 Hs3) as [H1 H2].
  unfold div_str, div. rewrite parse_path_plain; [done| |done|done].
  rewrite has_slash_append, has_slash_name_stem by exact Hsl. by rewrite Hs1.
Qed.

(** ** Runs of the monadic code *)

Lemma bind_ok_inv {A B} (m : M A) (k : A -> M B) s b s' :
  (m ≫= k) s = (Ok b, s') -> exists a s1, m s = (Ok a, s1) /\ k a s1 = (Ok b, s').
Proof. unfold mbind, M_bind. destruct (m s) as [[a|e] s1]; [eauto|discriminate]. Qed.

Lemma for_each_cons {A} (x : A) l body :
  for_each (x :: l) body = (body x ;; for_each l body).
Proof. reflexivity. Qed.

Lemma bind_app_list {A B} (l1 l2 : list A) (f : A -> list B) :
  (l1 ++ l2) ≫= f = (l1 ≫= f) ++ (l2 ≫= f).
Proof. apply bind_app. Qed.

Lemma sco_outputs_app fs1 fs2 : sco_outputs (fs1 ++ fs2) = sco_outputs fs1 ++ sco_outputs fs2.
Proof. unfold sco_outputs. apply bind_app. Qed.

(** [copy_files] over plain pairs never raises: every pair is logged, and
    a failed copy is logged as skipped. *)
Lemma copy_files_plain w l : forall s,
  copy_files w (map mret l) s = (Ok tt, St (heap s) (logs s ++ copy_log w l) (files s)).
Proof.
  induction l as [|[src dst] l IH]; intros [h lg fl].
  - simpl. unfold copy_log. simpl. by rewrite app_nil_r.
  - unfold copy_files. cbn [map]. rewrite for_each_cons.
    fold (copy_files w (map mret l)).
    destruct (w_copy w src dst) eqn:Hc.
    + erewrite bind_ok.
      2:{ unfold mbind at 1, M_bind at 1, mret at 1, M_ret at 1. cbn -[String.append].
          rewrite Hc. reflexivity. }
      rewrite IH. unfold copy_log. simpl. rewrite Hc. simpl. by rewrite <- app_assoc.
    + erewrite bind_ok.
      2:{ unfold mbind at 1, M_bind at 1, mret at 1, M_ret at 1. cbn -[String.append].
          rewrite Hc. reflexivity. }
      rewrite IH. unfold copy_log. simpl. rewrite Hc. simpl.
      by rewrite <- !app_assoc.
Qed.

(** A computation that, when it returns, has written no scene-object file. *)
Definition sco_stable {A} (m : M A) : Prop :=
  forall s a s', m s = (Ok a, s') -> sco_outputs (files s') = sco_outputs (files s).

Lemma stable_ret {A} (a : A) : sco_stable (mret a).
Proof. intros s b s' H. by inversion H. Qed.

Lemma stable_bind {A B} (m : M A) (k : A -> M B) :
  sco_stable m -> (forall a, sco_stable (k a)) -> sco_stable (m ≫= k).
Proof.
  intros Hm Hk s b s' H. apply bind_ok_inv in H as (a & s1 & H1 & H2).
  rewrite (Hk _ _ _ _ H2). exact (Hm _ _ _ H1).
Qed.

Lemma stable_get_heap : sco_stable get_heap.
Proof. intros s a s' H. by inversion H. Qed.

Lemma stable_put_heap h : sco_stable (put_heap h).
Proof. intros s a s' H. by inversion H. Qed.

Lemma stable_log ev : sco_stable (log ev).
Proof. intros s a s' H. by inversion H. Qed.

Lemma stable_throw {A} e : sco_stable (@throw A e).
Proof. intros s a s' H. discriminate. Qed.

Lemma stable_lift {A} (o : outcome A) : sco_stable (lift o).
Proof. intros s a s' H. destruct o; by inversion H. Qed.

Lemma stable_emit_mat p e : sco_stable (emit (MatFile p e)).
Proof.
  intros s a s' H. inversion H; subst. simpl. rewrite sco_outputs_app. simpl.
  by rewrite app_nil_r.
Qed.

Lemma stable_for_each {A} (l : list A) body :
  (forall x, sco_stable (body x)) -> sco_stable (for_each l body).
Proof.
  intros Hb. induction l as [|x l IH]; [apply stable_ret|].
  rewrite for_each_cons. apply stable_bind; [apply Hb | intros; exact IH].
Qed.

Ltac stable :=
  repeat match goal with
  | |- sco_stable (_ ≫= _) => apply stable_bind; [|intros ?]
  | |- sco_stable (mret _) => apply stable_ret
  | |- sco_stable get_heap => apply stable_get_heap
  | |- sco_stable (put_heap _) => apply stable_put_heap
  | |- sco_stable (log _) => apply stable_log
  | |- sco_stable (throw _) => apply stable_throw
  | |- sco_stable (lift _) => apply stable_lift
  | |- sco_stable (emit (MatFile _ _)) => apply stable_emit_mat
  | |- sco_stable (for_each _ _) => apply stable_for_each; intros ?
  | |- sco_stable (if ?b then _ else _) => destruct b
  | |- sco_stable (match ?x with _ => _ end) => destruct x
  end.

Lemma stable_et_parse w tf : sco_stable (et_parse w tf).
Proof. unfold et_parse. stable. Qed.

Lemma stable_deepcopy lim a : sco_stable (deepcopy lim a).
Proof. unfold deepcopy. stable. Qed.

Lemma stable_with_tc_info_from w lim tf a : sco_stable (with_tc_info_from w lim tf a).
Proof.
  unfold with_tc_info_from. apply stable_bind; [apply stable_deepcopy|intros ?].
  apply stable_bind; [apply stable_et_parse|intros ?]. stable.
Qed.

Lemma stable_copy_files w l : Forall sco_stable l -> sco_stable (copy_files w l).
Proof.
  intros Hl. unfold copy_files. induction Hl as [|x l Hx Hl IH]; [apply stable_ret|].
  rewrite for_each_cons. apply stable_bind; [|intros; exact IH].
  apply stable_bind; [exact Hx|intros ?]. stable.
Qed.

Lemma stable_texture_copy o d a : sco_stable (texture_copy o d a).
Proof. unfold texture_copy. stable. Qed.

Lemma stable_write_tree w lim a p : sco_stable (write_tree w lim a p).
Proof. unfold write_tree. stable. Qed.

Lemma stable_handle_materials w lim f tpls nm dst :
  sco_stable (handle_materials w lim f tpls nm dst).
Proof.
  unfold handle_materials. apply stable_bind; [apply stable_et_parse|intros ?].
  apply stable_bind; [apply stable_get_heap|intros ?].
  apply stable_bind.
  - apply stable_copy_files. apply Forall_forall. intros x Hx.
    apply list_elem_of_fmap_1 in Hx as (n & -> & _). apply stable_texture_copy.
  - intros _. apply stable_for_each. intros tf.
    apply stable_bind; [apply stable_lift|intros ?].
    apply stable_bind; [apply stable_with_tc_info_from|intros ?].
    apply stable_bind; [apply stable_log|intros ?]. apply stable_write_tree.
Qed.

Lemma stable_map_M_tostring lim xs : sco_stable (map_M (tostring lim) xs).
Proof.
  induction xs as [|x xs IH]; cbn [map_M]; [apply stable_ret|].
  apply stable_bind; [unfold tostring; stable|intros ?].
  apply stable_bind; [exact IH|intros ?]. apply stable_ret.
Qed.

Lemma stable_sco_preview w f tr pd sd d : sco_stable (sco_preview w f tr pd sd d).
Proof.
  unfold sco_preview. apply stable_bind; [apply stable_get_heap|intros h].
  destruct (find h tr ["sceneobject"; "preview"]) as [n|]; [|apply stable_ret].
  destruct (h !! n ≫= ntext) as [t|]; [|apply stable_throw].
  apply stable_bind.
  - apply stable_copy_files. repeat constructor. apply stable_ret.
  - intros _. stable.
Qed.

Lemma stable_get_sco_replacements w lim f pd sd :
  sco_stable (get_sco_replacements w lim f pd sd).
Proof.
  unfold get_sco_replacements. destruct f as [f|]; [|apply stable_ret].
  apply stable_bind; [apply stable_et_parse|intros tr].
  apply stable_bind; [apply stable_sco_preview|intros d].
  apply stable_bind; [apply stable_get_heap|intros h].
  apply stable_bind; [apply stable_map_M_tostring|intros cs].
  destruct cs; apply stable_ret.
Qed.

(** ** Dicts *)

Lemma dict_set_dict_set d k v1 v2 : dict_set (dict_set d k v1) k v2 = dict_set d k v2.
Proof.
  induction d as [|[k' v'] d IH]; simpl.
  - by rewrite String.eqb_refl.
  - destruct (String.eqb k k') eqn:E; simpl; rewrite E; [done|]. by rewrite IH.
Qed.

Lemma dict_get_set_eq d k v : dict_get (dict_set d k v) k = Some v.
Proof.
  induction d as [|[k' v'] d IH]; simpl.
  - by rewrite String.eqb_refl.
  - destruct (String.eqb k k') eqn:E; simpl; rewrite E; done.
Qed.

Lemma dict_get_set_ne d k k1 v : k1 <> k -> dict_get (dict_set d k v) k1 = dict_get d k1.
Proof.
  intros Hne. induction d as [|[k' v'] d IH]; simpl.
  - by rewrite (proj2 (String.eqb_neq _ _) Hne).
  - destruct (String.eqb k k') eqn:E; simpl.
    + apply String.eqb_eq in E. subst k'.
      by rewrite (proj2 (String.eqb_neq _ _) Hne).
    + by rewrite IH.
Qed.

(** ** Scene-object files *)

(** The body of [create_nl2scos] for one template, when it returns. *)
Lemma create_nl2scos_step w tpl d nm dst s s' :
  (new_nl2sco_content ← with_applied_placeholders w tpl d;
   dst_nl2sco ← lift (transform_to_dst_file tpl "[sco]" (capitalize w nm) ".nl2sco" dst);
   log (ECreating dst_nl2sco) ;;
   write_content_to w new_nl2sco_content dst_nl2sco) s = (Ok tt, s') ->
  exists c p, w_read w tpl = Some c /\
    transform_to_dst_file tpl "[sco]" (capitalize w nm) ".nl2sco" dst = Ok p /\
    files s' = files s ++ [ScoFile p (apply_replacements c d)].
Proof.
  intros H. destruct (w_read w tpl) as [c|] eqn:Hr.
  2:{ assert (Hw : with_applied_placeholders w tpl d s
                   = (Raise (read_exn (w_read_failure w tpl)), s)).
      { unfold with_applied_placeholders, read_content_of. by rewrite Hr. }
      rewrite (bind_raise _ _ _ _ _ Hw) in H. discriminate. }
  rewrite (bind_ok _ _ _ _ _ (with_applied_placeholders_read w tpl d s c Hr)) in H.
  destruct (transform_to_dst_file tpl "[sco]" (capitalize w nm) ".nl2sco" dst) as [p|e] eqn:Ht.
  2:{ rewrite (bind_raise _ _ s e s) in H by reflexivity. discriminate. }
  rewrite (bind_ok _ _ s p s) in H by reflexivity.
  rewrite (bind_ok _ _ s tt (St (heap s) (logs s ++ [ECreating p]) (files s))) in H
    by reflexivity.
  unfold write_content_to in H. destruct (w_write w p); [|discriminate].
  inversion H; subst. exists c, p. done.
Qed.

Lemma create_nl2scos_ok w tpls d nm dst : forall s s',
  create_nl2scos w tpls d nm dst s = (Ok tt, s') ->
  sco_outputs (files s') = sco_outputs (files s) ++ expected_scos w tpls d nm dst.
Proof.
  induction tpls as [|tpl tpls IH]; intros s s' H.
  - inversion H; subst. unfold expected_scos. simpl. by rewrite app_nil_r.
  - unfold create_nl2scos in H. rewrite for_each_cons in H.
    apply bind_ok_inv in H as ([] & s1 & H1 & H2).
    apply create_nl2scos_step in H1 as (c & p & Hr & Ht & Hf).
    rewrite (IH _ _ H2), Hf, sco_outputs_app. unfold expected_scos at 2.
    rewrite bind_cons, Hr, Ht. simpl. by rewrite <- app_assoc.
Qed.

Lemma process_materials_ok w lim mats : forall d mtpls mdst stpls sdst s s',
  process_materials w lim d mats mtpls mdst stpls sdst s = (Ok tt, s') ->
  sco_outputs (files s') = sco_outputs (files s) ++
    concat (map (fun m => expected_scos w stpls (dict_set d "{material_name}" (stem m))
                                        (stem m) sdst) mats).
Proof.
  induction mats as [|m mats IH]; intros d mtpls mdst stpls sdst s s' H.
  - inversion H; subst. simpl. by rewrite app_nil_r.
  - simpl in H. apply bind_ok_inv in H as ([] & s1 & H1 & H2).
    apply bind_ok_inv in H2 as ([] & s2 & H2 & H3).
    rewrite (IH _ _ _ _ _ _ _ H3), (create_nl2scos_ok _ _ _ _ _ _ _ H2).
    rewrite (stable_handle_materials _ _ _ _ _ _ _ _ _ H1).
    simpl. rewrite <- !app_assoc. do 3 f_equal.
    apply map_ext. intros m'. by rewrite dict_set_dict_set.
Qed.

Lemma for_each_app {A} (l1 l2 : list A) body : forall s,
  for_each (l1 ++ l2) body s = (for_each l1 body ;; for_each l2 body) s.
Proof.
  induction l1 as [|x l1 IH]; intros s; [reflexivity|].
  cbn [app for_each]. unfold mbind, M_bind in *.
  destruct (body x s) as [[[]|e] s1]; [apply IH|reflexivity].
Qed.



(** An exception of the group after [gs1] ends the run of [run_for_config]
    with the state it left. *)
Lemma run_for_config_group_raise w lim exec cfg gs1 grp gs2 mt st s0 s1 e s2 :
  run_groups cfg = gs1 ++ grp :: gs2 ->
  run_for_config w lim exec
    (RunConfiguration gs1 (nl2mat_dst cfg) (nl2sco_dst cfg) (preview_dst cfg)) mt st s0
    = (Ok tt, s1) ->
  process_group_files w lim (nl2mat_files grp) mt (div exec (parse_path (nl2mat_dst cfg)))
    (nl2sco_file grp) st (div exec (parse_path (nl2sco_dst cfg)))
    (div exec (parse_path (preview_dst cfg))) s1 = (Raise e, s2) ->
  run_for_config w lim exec cfg mt st s0 = (Raise e, s2).
Proof.
  intros Hg H1 H2. unfold run_for_config in *. cbn [run_groups nl2mat_dst nl2sco_dst preview_dst] in H1.
  rewrite Hg, for_each_app, (bind_ok _ _ _ _ _ H1), for_each_cons.
  by rewrite (bind_raise _ _ _ _ _ H2).
Qed.

(** ** Replacement maps *)

Lemma et_parse_in_tree w tf s T :
  w_parse w tf = Some T ->
  exists h2 tr, et_parse w tf s = (Ok tr, St h2 (logs s) (files s)) /\
    in_tree h2 0 (length h2) tr T.
Proof.
  intros HT. destruct (alloc (heap s) T) as [h2 tr] eqn:E.
  destruct (alloc_spec _ _ _ _ E) as [_ [Hl Ht]].
  exists h2, tr. split; [by apply (et_parse_ok w tf s T)|].
  exists (length (heap s)). split; [exact Ht|]. lia.
Qed.

Definition preview_path : list string := ["sceneobject"; "preview"].

Lemma sco_preview_found w f tr pd sd d s L U S g ats t tl ks :
  in_tree (heap s) L U tr S ->
  find_v S preview_path = Some (Elem g ats (Some t) tl ks) ->
  sco_preview w f tr pd sd d s =
    (match relative_to (div_str pd t) sd with
     | Ok rel => Ok (dict_set d "{preview}"
                       (String.append "<preview>" (String.append (as_posix rel) "</preview>")))
     | Raise e => Raise e
     end,
     St (heap s) (logs s ++ copy_log w [(div_str (parent f) t, div_str pd t)]) (files s)).
Proof.
  intros Hin Hf. unfold preview_path in Hf.
  destruct (find_in_tree _ _ _ _ _ ["sceneobject"; "preview"] Hin)
    as [[_ Hn] | (u & uv & Hu & Huv & Hinu)]; [congruence|].
  rewrite Hf in Huv. injection Huv as <-. destruct Hinu as (lo & Htu & _).
  inversion Htu as [? ? g' ats' t' tl' xs ks' Hua _]; subst.
  unfold sco_preview. rewrite (bind_ok _ _ s (heap s) s) by reflexivity.
  rewrite Hu. cbn [mbind option_bind]. rewrite Hua.
  change (Some (Node g ats (Some t) tl xs) ≫= ntext) with (Some t). cbv iota beta.
  assert (Hc : copy_files w [mret (div_str (parent f) t, div_str pd t)] s =
                (Ok tt, St (heap s) (logs s ++ copy_log w [(div_str (parent f) t, div_str pd t)])
                           (files s)))
    by exact (copy_files_plain w [(div_str (parent f) t, div_str pd t)] s).
  rewrite (bind_ok _ _ _ _ _ Hc).
  destruct (relative_to (div_str pd t) sd) as [rel|e]; reflexivity.
Qed.

Lemma forall2_append_kids frag l :
  Forall2 (fun x y => etag y = etag x /\ etext y = etext x /\ ekids y = ekids x ++ frag /\
                      length (ekids y) = length (ekids x) + length frag)
    l (map (append_kids frag) l).
Proof.
  induction l as [|[g ats t tl ks] l IH]; constructor; [|exact IH].
  simpl. rewrite length_app. done.
Qed.

Lemma relative_to_ok p other :
  is_relative_to p other = true ->
  relative_to p other = Ok (Path "" (skipn (length (comps other)) (comps p))).
Proof. unfold relative_to. by intros ->. Qed.

Lemma relative_to_raise p other :
  is_relative_to p other = false -> relative_to p other = Raise ValueError.
Proof. unfold relative_to. by intros ->. Qed.

(** ** Lemmas on the command line *)

Lemma M_bind_assoc {A B C} (m : M A) (f : A -> M B) (g : B -> M C) s :
  ((m ≫= f) ≫= g) s = (m ≫= (fun x => f x ≫= g)) s.
Proof. unfold mbind, M_bind. destruct (m s) as [[a|e] s1]; reflexivity. Qed.

Lemma from_path_content_run w p s :
  from_path_content w p s =
    (Ok (dir_group w p), St (heap s) (logs s ++ sco_warning w p) (files s)).
Proof.
  destruct s as [h lg fl]. unfold from_path_content, sco_warning, dir_group.
  destruct (Nat.ltb 1 (length (glob w p ".nl2sco"))); [reflexivity|].
  cbn. by rewrite app_nil_r.
Qed.

Lemma groups_loop_run w is_dir pe args : checks_return is_dir pe args -> forall U G s,
  groups_loop w is_dir pe args U G s =
    (Ok (U ++ ungrouped_arguments is_dir pe args,
         G ++ filter (fun g => has_data g = true) (map (dir_group w) (dir_arguments is_dir args))),
     St (heap s) (logs s ++ (dir_arguments is_dir args ≫= sco_warning w)) (files s)).
Proof.
  unfold ungrouped_arguments, dir_arguments.
  induction 1 as [|f args [Hd0 He0] Hargs IH]; intros U G s.
  - destruct s. cbn. by rewrite !app_nil_r.
  - cbn [groups_loop map]. rewrite !filter_cons.
    destruct (is_dir (parse_path f)) as [[|]|] eqn:Hd; [| |done].
    + rewrite (bind_ok _ _ _ _ _ (from_path_content_run w (parse_path f) s)).
      rewrite IH. cbn [negb andb returned_true]. rewrite decide_False by done.
      rewrite decide_True by done.
      cbn [map]. rewrite filter_cons, bind_cons. cbn [heap logs files].
      f_equal. f_equal.
      * f_equal. destruct (has_data (dir_group w (parse_path f))) eqn:Hh.
        -- rewrite decide_True by done. by rewrite <- app_assoc.
        -- rewrite decide_False by (intros Hc; rewrite Hc in Hh; discriminate). done.
      * f_equal. by rewrite <- app_assoc.
    + rewrite (decide_False (P := returned_true (Some false) = true)) by discriminate.
      cbn [negb andb returned_true].
      destruct (pe (parse_path f)) as [b|] eqn:He; [|by destruct He0]. cbn [returned_true].
      destruct (b && String.eqb (suffix (parse_path f)) ".nl2mat") eqn:Hb.
      * rewrite decide_True by done. rewrite IH. by rewrite <- app_assoc.
      * rewrite decide_False by (intros Hc; congruence). by rewrite IH.
Qed.

(** A run of [groups_loop] that returns made only checks that returned. *)
Lemma groups_loop_checks w is_dir pe args : forall U G s r s',
  groups_loop w is_dir pe args U G s = (Ok r, s') -> checks_return is_dir pe args.
Proof.
  induction args as [|f args IH]; intros U G s r s' H; [constructor|].
  cbn [groups_loop] in H.
  destruct (is_dir (parse_path f)) as [[|]|] eqn:Hd; [| |discriminate].
  - apply bind_ok_inv in H as (g & s1 & _ & H). constructor; [|exact (IH _ _ _ _ _ H)].
    rewrite Hd. split; [done|discriminate].
  - destruct (pe (parse_path f)) as [b|] eqn:He; [|discriminate].
    constructor; [rewrite Hd, He; done|].
    destruct (b && _); exact (IH _ _ _ _ _ H).
Qed.

(** [groups_loop] over arguments whose checks return, then over the rest. *)
Lemma groups_loop_app w is_dir pe args1 args2 : checks_return is_dir pe args1 ->
  forall U G s, exists U' G' s',
    groups_loop w is_dir pe (args1 ++ args2) U G s = groups_loop w is_dir pe args2 U' G' s'.
Proof.
  induction 1 as [|f args [Hd0 He0] Hargs IH]; intros U G s; [by exists U, G, s|].
  cbn [groups_loop app].
  destruct (is_dir (parse_path f)) as [[|]|] eqn:Hd; [| |done].
  - rewrite (bind_ok _ _ _ _ _ (from_path_content_run w (parse_path f) s)). apply IH.
  - destruct (pe (parse_path f)) as [b|] eqn:He; [|by destruct He0].
    destruct (b && _); apply IH.
Qed.

Lemma groups_from_paths_run w is_dir pe args s : checks_return is_dir pe args ->
  groups_from_paths w is_dir pe args s =
    (Ok (RunGroup None (ungrouped_arguments is_dir pe args) ::
         filter (fun g => has_data g = true) (map (dir_group w) (dir_arguments is_dir args))),
     St (heap s) (logs s ++ (dir_arguments is_dir args ≫= sco_warning w)) (files s)).
Proof.
  intros Hc. unfold groups_from_paths.
  rewrite (bind_ok _ _ _ _ _ (groups_loop_run w is_dir pe args Hc [] [] s)).
  reflexivity.
Qed.

Lemma groups_from_paths_checks w is_dir pe args s gs s' :
  groups_from_paths w is_dir pe args s = (Ok gs, s') -> checks_return is_dir pe args.
Proof.
  unfold groups_from_paths. intros H. apply bind_ok_inv in H as (r & s1 & H & _).
  exact (groups_loop_checks _ _ _ _ _ _ _ _ _ H).
Qed.

Lemma no_material_iff w is_dir pe args :
  (ungrouped_arguments is_dir pe args = [] /\
   filter (fun g => has_data g = true) (map (dir_group w) (dir_arguments is_dir args)) = []) <->
  Forall (no_material w is_dir pe) args.
Proof.
  unfold ungrouped_arguments, dir_arguments.
  induction args as [|f args IH]; [split; [constructor|done]|].
  cbn [map]. rewrite !filter_cons, Forall_cons, <- IH. unfold no_material.
  destruct (returned_true (is_dir (parse_path f))) eqn:Hd; cbn [negb andb].
  - rewrite decide_False by done. rewrite decide_True by done. cbn [map]. rewrite filter_cons.
    unfold has_data, dir_group. cbn [nl2mat_files].
    destruct (glob w (parse_path f) ".nl2mat") as [|x xs] eqn:Hg; cbn.
    + rewrite decide_False by done. tauto.
    + rewrite decide_True by done. split; [intros [_ Hc]; discriminate|intros [Hc _]; discriminate].
  - rewrite (decide_False (P := false = true)) by discriminate.
    destruct (returned_true (pe (parse_path f))) eqn:He; cbn [andb].
    + destruct (String.eqb (suffix (parse_path f)) ".nl2mat") eqn:Hs.
      * rewrite decide_True by done. apply String.eqb_eq in Hs.
        split; [intros [Hc _]; discriminate|intros [[Hc|Hc] _]; congruence].
      * rewrite decide_False by done. apply String.eqb_neq in Hs. tauto.
    + rewrite decide_False by done. tauto.
Qed.

Lemma show_tutorial_cons g gs :
  show_tutorial (g :: gs) = true <-> nl2mat_files g = [] /\ gs = [].
Proof.
  destruct gs as [|g' gs]; cbn.
  - rewrite Nat.eqb_eq. destruct (nl2mat_files g); cbn; split; intros H; try done.
    + by destruct H.
  - split; [discriminate|intros [_ Hc]; discriminate].
Qed.

Lemma from_args_run w is_dir pe args s : checks_return is_dir pe (cl_files args) ->
  from_args w is_dir pe args s =
    (Ok (ParsedConfiguration
           (RunGroup None (ungrouped_arguments is_dir pe (cl_files args)) ::
            filter (fun g => has_data g = true)
              (map (dir_group w) (dir_arguments is_dir (cl_files args))))
           (nargs1 (cl_nl2mat_out args) NL2MAT_OUT_DEFAULT)
           (nargs1 (cl_nl2sco_out args) NL2SCO_OUT_DEFAULT)
           (nargs1 (cl_preview_out args) PREVIEW_OUT_DEFAULT)),
     St (heap s) (logs s ++ (dir_arguments is_dir (cl_files args) ≫= sco_warning w)) (files s)).
Proof.
  intros Hc. unfold from_args. rewrite (bind_ok _ _ _ _ _ (groups_from_paths_run w is_dir pe _ s Hc)).
  reflexivity.
Qed.

Lemma setup_logging_run date exec_dir s :
  setup_logging date true exec_dir s =
    (Ok tt, St (heap s) (logs s) (files s ++ [LogFile (log_file date exec_dir)])).
Proof. reflexivity. Qed.

Lemma log_run ev s : log ev s = (Ok tt, St (heap s) (logs s ++ [ev]) (files s)).
Proof. reflexivity. Qed.

(** ** Lemmas on reading, replacement maps and material files *)

Lemma read_mono f : forall h a e f', read f h a = Some e -> f <= f' -> read f' h a = Some e.
Proof.
  induction f as [|f IH]; intros h a e f' Hr Hle; [discriminate|].
  destruct f' as [|f']; [lia|]. cbn [read] in *.
  destruct (h !! a) as [n|]; [|discriminate].
  destruct (mapM (read f h) (nkids n)) as [ks|] eqn:Hm; [|discriminate].
  assert (Hm' : mapM (read f' h) (nkids n) = Some ks).
  { clear Hr. revert ks Hm. induction (nkids n) as [|x xs IHx]; intros ks Hm; [done|].
    cbn in Hm |- *. destruct (read f h x) as [e1|] eqn:Hx; [|discriminate].
    rewrite (IH _ _ _ _ Hx) by lia. cbn in Hm.
    destruct (mapM (read f h) xs) as [ks1|]; [|discriminate].
    rewrite (IHx ks1 eq_refl). done. }
  by rewrite Hm'.
Qed.

Lemma read_reads_eq f h a e e' : read f h a = Some e -> reads h a e' -> e = e'.
Proof.
  intros Hr [F HF]. specialize (HF (max f F) ltac:(lia)).
  rewrite (read_mono f h a e (max f F) Hr ltac:(lia)) in HF. congruence.
Qed.

Lemma reads_prefix h h' a e :
  reads h a e -> (forall i, i < length h -> h' !! i = h !! i) -> reads h' a e.
Proof. intros [F HF] Hp. exists F. intros f Hf. eapply read_prefix; [apply HF, Hf|exact Hp]. Qed.

Lemma in_tree_reads h L U x v : in_tree h L U x v -> reads h x v.
Proof. intros (lo & Ht & _). by apply (proj1 (trep_reads h)) in Ht. Qed.

Lemma serialize_names_ok e : serialize e = None <-> names_ok e = false.
Proof.
  unfold serialize, names_ok. destruct (namespaces_of e); cbn; split; congruence.
Qed.

Lemma map_M_tostring lim h L U xs vs :
  Forall2 (in_tree h L U) xs vs -> forall s, heap s = h ->
  map_M (tostring lim) xs s = (Raise RecursionError, s) \/
  (map_M (tostring lim) xs s = (Raise ValueError, s) /\ Exists (fun v => names_ok v = false) vs) \/
  exists ys, map_M (tostring lim) xs s = (Ok ys, s).
Proof.
  induction 1 as [|x v xs vs Hx Hxs IH]; intros s Hh; [right; right; eexists; reflexivity|].
  cbn [map_M]. destruct (read lim (heap s) x) as [e|] eqn:Hr.
  - rewrite Hh in Hr.
    pose proof (read_reads_eq _ _ _ _ _ Hr (in_tree_reads _ _ _ _ _ Hx)) as ->.
    rewrite <- Hh in Hr.
    destruct (serialize v) as [c|] eqn:Hs.
    + rewrite (bind_ok _ _ s c s).
      2:{ unfold tostring. rewrite (bind_ok _ _ s (heap s) s) by reflexivity. by rewrite Hr, Hs. }
      destruct (IH s Hh) as [H|[[H He]|[ys H]]].
      * left. by rewrite (bind_raise _ _ _ _ _ H).
      * right; left. split; [by rewrite (bind_raise _ _ _ _ _ H)|]. by apply Exists_cons_tl.
      * right; right. exists (c :: ys). by rewrite (bind_ok _ _ _ _ _ H).
    + right; left. split.
      * apply bind_raise. unfold tostring.
        rewrite (bind_ok _ _ s (heap s) s) by reflexivity. by rewrite Hr, Hs.
      * apply Exists_cons_hd. by apply serialize_names_ok.
  - left. apply bind_raise.
    unfold tostring. rewrite (bind_ok _ _ s (heap s) s) by reflexivity. by rewrite Hr.
Qed.

(** The user-color part of [get_sco_replacements] leaves the preview entry
    as it is. *)
Lemma usercolors_stage lim tr d s L U S :
  in_tree (heap s) L U tr S ->
  let r := (h ← get_heap;
            usercolors ← map_M (tostring lim) (findall h tr ["sceneobject"; "usercolor"]);
            match usercolors with
            | [] => mret d
            | _ :: _ => mret (dict_set d "{original_usercolors}"
                                (String.concat (String "010" EmptyString) usercolors))
            end) s in
  r = (Raise RecursionError, s) \/
  (r = (Raise ValueError, s) /\ Exists (fun v => names_ok v = false) (findall_v S usercolor_path)) \/
  exists d', r = (Ok d', s) /\ dict_get d' "{preview}" = dict_get d "{preview}".
Proof.
  intros Hin. cbv zeta. rewrite (bind_ok _ _ s (heap s) s) by reflexivity.
  pose proof (findall_in_tree _ _ _ _ _ usercolor_path Hin) as Hsel.
  destruct (map_M_tostring lim _ _ _ _ _ Hsel s eq_refl) as [H|[[H He]|[ys H]]].
  - left. by rewrite (bind_raise _ _ _ _ _ H).
  - right; left. split; [by rewrite (bind_raise _ _ _ _ _ H)|exact He].
  - right; right. rewrite (bind_ok _ _ _ _ _ H). destruct ys as [|y ys].
    + exists d. done.
    + eexists. split; [reflexivity|]. by apply dict_get_set_ne.
Qed.

Lemma get_sco_replacements_preview w lim f pd sd s S g ats t tl ks :
  w_parse w f = Some S ->
  find_v S preview_path = Some (Elem g ats (Some t) tl ks) ->
  match relative_to (div_str pd t) sd with
  | Raise e => fst (get_sco_replacements w lim (Some f) pd sd s) = Raise e
  | Ok rel =>
      fst (get_sco_replacements w lim (Some f) pd sd s) = Raise RecursionError \/
      (fst (get_sco_replacements w lim (Some f) pd sd s) = Raise ValueError /\
       Exists (fun v => names_ok v = false) (findall_v S usercolor_path)) \/
      exists d s', get_sco_replacements w lim (Some f) pd sd s = (Ok d, s') /\
        dict_get d "{preview}" =
          Some (String.append "<preview>" (String.append (as_posix rel) "</preview>"))
  end.
Proof.
  intros HS Hf. destruct (et_parse_in_tree w f s S HS) as (h2 & tr & Hp & Hin).
  unfold get_sco_replacements. rewrite (bind_ok _ _ _ _ _ Hp).
  set (s2 := St h2 (logs s) (files s)).
  assert (Hin2 : in_tree (heap s2) 0 (length h2) tr S) by exact Hin.
  pose proof (sco_preview_found w f tr pd sd sco_defaults s2 _ _ S g ats t tl ks Hin2 Hf) as Hsp.
  destruct (relative_to (div_str pd t) sd) as [rel|e].
  - rewrite (bind_ok _ _ _ _ _ Hsp).
    destruct (usercolors_stage lim tr
                (dict_set sco_defaults "{preview}"
                   (String.append "<preview>" (String.append (as_posix rel) "</preview>")))
                (St (heap s2) (logs s2 ++ copy_log w [(div_str (parent f) t, div_str pd t)])
                    (files s2)) _ _ _ Hin2) as [H|[[H He]|(d' & H & Hd)]]; cbv zeta in H; cbv beta.
    + left. by rewrite H.
    + right; left. by rewrite H.
    + right; right. rewrite H. do 2 eexists. split; [reflexivity|].
      rewrite Hd. apply dict_get_set_eq.
  - rewrite (bind_raise _ _ _ _ _ Hsp). reflexivity.
Qed.

Lemma in_tree_node h L U x v :
  in_tree h L U x v -> exists xs, h !! x = Some (Node (etag v) (eattrib v) (etext v) (etail v) xs).
Proof. intros (lo & Ht & _). inversion Ht; subst. eauto. Qed.

Lemma dict_set_keys d k v v0 :
  dict_get d k = Some v0 -> map fst (dict_set d k v) = map fst d.
Proof.
  induction d as [|[k' v'] d IH]; [discriminate|]. cbn.
  destruct (String.eqb k k'); [done|]. intros H. cbn. by rewrite IH.
Qed.

Lemma sco_preview_ok_inv w f tr pd sd d s d' s' :
  sco_preview w f tr pd sd d s = (Ok d', s') ->
  heap s' = heap s /\ (d' = d \/ exists v, d' = dict_set d "{preview}" v).
Proof.
  unfold sco_preview. rewrite (bind_ok _ _ s (heap s) s) by reflexivity.
  destruct (find (heap s) tr ["sceneobject"; "preview"]) as [n|].
  2:{ intros [= <- <-]. auto. }
  destruct (heap s !! n ≫= ntext) as [t|]; [|discriminate].
  rewrite (bind_ok _ _ _ _ _ (copy_files_plain w [(div_str (parent f) t, div_str pd t)] s)).
  destruct (relative_to (div_str pd t) sd) as [rel|e]; [|discriminate].
  intros [= <- <-]. split; [done|]. right. eauto.
Qed.

Lemma map_M_tostring_values lim h L U xs vs :
  Forall2 (in_tree h L U) xs vs -> forall s cs s',
  heap s = h -> map_M (tostring lim) xs s = (Ok cs, s') -> mapM serialize vs = Some cs /\ s' = s.
Proof.
  induction 1 as [|x v xs vs Hx Hxs IH]; intros s cs s' Hh H; [by inversion H|].
  cbn [map_M] in H. apply bind_ok_inv in H as (c & s1 & H1 & H2).
  unfold tostring in H1. rewrite (bind_ok _ _ s (heap s) s) in H1 by reflexivity.
  destruct (read lim (heap s) x) as [e|] eqn:Hr; [|discriminate].
  rewrite Hh in Hr.
  pose proof (read_reads_eq _ _ _ _ _ Hr (in_tree_reads _ _ _ _ _ Hx)) as ->.
  destruct (serialize v) as [c'|] eqn:Hs; [|discriminate].
  injection H1 as <- <-.
  apply bind_ok_inv in H2 as (cs1 & s2 & H2 & H3).
  destruct (IH s cs1 s2 Hh H2) as [Hm ->]. injection H3 as <- <-.
  split; [|done]. cbn. by rewrite Hs, Hm.
Qed.

Lemma et_parse_run_eq w f s S tr s1 :
  w_parse w f = Some S -> et_parse w f s = (Ok tr, s1) ->
  logs s1 = logs s /\ files s1 = files s /\ in_tree (heap s1) 0 (length (heap s1)) tr S.
Proof.
  intros HS H. destruct (et_parse_in_tree w f s S HS) as (h2 & tr' & Hp & Hin).
  rewrite Hp in H. injection H as <- <-. done.
Qed.

Lemma texture_copy_step h L U o d x v s :
  in_tree h L U x v -> heap s = h ->
  texture_copy o d x s =
    (match etext v with
     | Some t => Ok (div_str o t, div_str d t)
     | None => Raise TypeError
     end, s).
Proof.
  intros Hin Hh. destruct (in_tree_node _ _ _ _ _ Hin) as [xs Hx].
  unfold texture_copy. rewrite (bind_ok _ _ s (heap s) s) by reflexivity.
  rewrite Hh, Hx. cbn. by destruct (etext v).
Qed.

Lemma copy_textures w h L U o d xs vs :
  Forall2 (in_tree h L U) xs vs -> forall s, heap s = h ->
  (mapM etext vs = None ->
   exists lg, copy_files w (map (texture_copy o d) xs) s = (Raise TypeError, St h lg (files s))) /\
  (forall ts, mapM etext vs = Some ts ->
   copy_files w (map (texture_copy o d) xs) s =
     (Ok tt, St h (logs s ++ copy_log w (texture_pairs o d ts)) (files s))).
Proof.
  induction 1 as [|x v xs vs Hx Hxs IH]; intros s Hh.
  - split; [discriminate|]. intros ts [= <-]. destruct s; cbn in *. subst.
    unfold copy_log. cbn. by rewrite app_nil_r.
  - pose proof (texture_copy_step _ _ _ o d _ _ s Hx Hh) as Hst.
    unfold copy_files. cbn [map]. rewrite for_each_cons. fold (copy_files w (map (texture_copy o d) xs)).
    cbn [mapM]. destruct (etext v) as [t|] eqn:Ht.
    + set (s1 := St (heap s) (logs s ++ copy_log w [(div_str o t, div_str d t)]) (files s)).
      assert (Hb : (p ← texture_copy o d x;
                    log (ECopying p.1 p.2) ;;
                    if w_copy w p.1 p.2 then mret tt else log (ESkipped p.1)) s = (Ok tt, s1)).
      { rewrite (bind_ok _ _ _ _ _ Hst). cbn -[String.append]. unfold s1, copy_log. cbn.
        destruct (w_copy w (div_str o t) (div_str d t)); cbn; [reflexivity|].
        unfold mbind, M_bind, log. cbn. by rewrite <- app_assoc. }
      rewrite (bind_ok _ _ _ _ _ Hb). destruct (IH s1 Hh) as [IH1 IH2]. split.
      * intros Hn. destruct (mapM etext vs) as [ts|] eqn:Hm; [discriminate|].
        destruct (IH1 eq_refl) as [lg Hlg]. exists lg. exact Hlg.
      * intros ts Hts. destruct (mapM etext vs) as [ts1|] eqn:Hm; [|discriminate].
        injection Hts as <-. rewrite (IH2 ts1 eq_refl). unfold s1. cbn [heap logs files].
        f_equal. f_equal. unfold copy_log, texture_pairs. cbn.
        by rewrite app_nil_r, <- app_assoc.
    + split; [|discriminate]. intros _. exists (logs s).
      apply bind_raise. rewrite (bind_raise _ _ _ _ _ Hst). destruct s; cbn in *; by subst.
Qed.

Lemma mapM_etext_None vs : (exists v, v ∈ vs /\ etext v = None) -> mapM etext vs = None.
Proof.
  induction vs as [|v vs IH]; intros (u & Hu & Hn); [by apply not_elem_of_nil in Hu|].
  cbn. apply elem_of_cons in Hu as [->|Hu].
  - by rewrite Hn.
  - rewrite IH by eauto. by destruct (etext v).
Qed.

Lemma material_templates_loop w lim tpls nm dst m D : forall s s',
  reads (heap s) m D ->
  for_each tpls (fun template_file =>
    dst_nl2mat ← lift (transform_to_dst_file template_file
                         "[mat]" (String.append "[" (String.append nm "]"))
                         ".nl2mat" dst);
    new_nl2mat_content ← with_tc_info_from w lim template_file m;
    log (ECreating dst_nl2mat) ;;
    write_tree w lim new_nl2mat_content dst_nl2mat) s = (Ok tt, s') ->
  files s' = files s ++ expected_mats w tpls D nm dst /\
  logs s' = logs s ++ expected_mat_logs w tpls nm dst.
Proof.
  induction tpls as [|tpl tpls IH]; intros s s' HD H.
  - injection H as <-. unfold expected_mats, expected_mat_logs. cbn. by rewrite !app_nil_r.
  - rewrite for_each_cons in H. apply bind_ok_inv in H as ([] & s1 & H1 & H2).
    apply bind_ok_inv in H1 as (p & s0 & Hp & H1). unfold lift in Hp.
    destruct (transform_to_dst_file tpl "[mat]" _ ".nl2mat" dst) as [p'|e] eqn:Ht;
      [|discriminate]. injection Hp as <- <-.
    apply bind_ok_inv in H1 as (r & s2 & Hw & H1).
    destruct (with_tc_info_from_ok_inv _ _ _ _ _ _ _ Hw) as (tm & T & Hm & HT & HN).
    destruct (with_tc_info_from_run w lim tpl m s tm T Hm HT HN) as (r' & h3 & Hrun & Hpre & Hr).
    rewrite Hrun in Hw. injection Hw as <- <-.
    pose proof (read_reads_eq _ _ _ _ _ Hm HD) as ->.
    rewrite (bind_ok _ _ _ tt (St h3 (logs s ++ [ECreating p']) (files s))) in H1
      by reflexivity.
    unfold write_tree in H1. rewrite (bind_ok _ _ _ h3 _) in H1 by reflexivity.
    cbn [heap] in H1. destruct (read lim h3 r') as [e|] eqn:He; [|discriminate].
    pose proof (read_reads_eq _ _ _ _ _ He Hr) as ->.
    destruct (w_write w p') eqn:Hww; [|discriminate]. injection H1 as <-.
    pose proof (reads_prefix _ _ _ _ HD Hpre) as HD3.
    pose proof (fun H => IH _ _ H H2) as IH'.
    destruct (IH' HD3) as [Hf Hl].
    cbn [files logs] in Hf, Hl. rewrite Hf, Hl.
    unfold expected_mats, expected_mat_logs. rewrite !bind_cons, Ht, HT. cbn.
    by rewrite <- !app_assoc.
Qed.

Lemma dict_get_in d k : In k (map fst d) -> exists v, dict_get d k = Some v.
Proof.
  induction d as [|[k' v'] d IH]; [done|]. cbn. intros [<-|Hk].
  - rewrite String.eqb_refl. eauto.
  - destruct (String.eqb k k'); eauto.
Qed.

Lemma split_slash_nonempty s : exists r rest, split_slash s = r :: rest.
Proof.
  induction s as [|c s (r & rest & IH)]; [by exists "", []|]. cbn. rewrite IH.
  destruct (Ascii.eqb c "/"); eauto.
Qed.

(** A string that starts with [id], which has no ['/'], is split into a
    first piece that starts with [id]. *)
Lemma split_slash_prefix id : forall f,
  has_slash id = false -> String.prefix id f = true ->
  exists r rest, split_slash f = String.append id r :: rest.
Proof.
  induction id as [|c id IH]; intros f Hs Hp.
  - destruct (split_slash_nonempty f) as (r & rest & H). exists r, rest. done.
  - destruct f as [|c' f]; [discriminate|]. cbn in Hp, Hs.
    destruct (ascii_dec c c') as [<-|]; [|discriminate].
    apply orb_false_iff in Hs as [Hc Hs].
    destruct (IH f Hs Hp) as (r & rest & H). exists r, rest. cbn. rewrite Hc, H. done.
Qed.

(** A file name starting with ['['] is a relative path whose first
    component starts with the name's first characters. *)
Lemma div_str_bracket d id f :
  has_slash id = false -> String.prefix (String "[" id) f = true ->
  exists r rest, div_str d f = Path (root d) (comps d ++ String "[" (String.append id r) :: rest).
Proof.
  intros Hs Hp.
  assert (Hs' : has_slash (String "[" id) = false) by (cbn; exact Hs).
  destruct (split_slash_prefix _ f Hs' Hp) as (r & rest & H).
  destruct f as [|c f]; [discriminate|]. cbn [String.prefix] in Hp.
  destruct (ascii_dec "[" c) as [<-|]; [|discriminate].
  exists r, (filter (fun c => c <> "" /\ c <> ".") rest).
  assert (Hpp : parse_path (String "[" f) =
    Path "" (String "[" (String.append id r) :: filter (fun c => c <> "" /\ c <> ".") rest)).
  { unfold parse_path. rewrite H, filter_cons.
    rewrite decide_True by (split; discriminate). reflexivity. }
  unfold div_str. rewrite Hpp. reflexivity.
Qed.

(** ** Example inputs *)

(** An element with no attributes and no tail. *)
Definition el (g : string) (t : option string) (ks : list elem) : elem := Elem g [] t None ks.

Definition ex_mat_doc : elem :=
  el "root" None [el "material" None [el "renderpass" None
    [el "texunit" None [el "map" (Some "tex.png") []]]]].

Definition ex_mat_tpl : elem :=
  el "root" None [el "material" None [el "renderpass" None
    [el "texunit" None [el "tc" (Some "1") []; el "tc" (Some "2") []]]]].

(** A material template with no texture unit. *)
Definition ex_mat_tpl_bare : elem :=
  el "root" None [el "material" None [el "renderpass" None []]].

(** A material with no texture unit. *)
Definition ex_mat_plain : elem := el "root" None [el "material" None []].

Definition ex_sco_doc (preview : string) : elem :=
  el "root" None [el "sceneobject" None
    [el "preview" (Some preview) []; el "usercolor" (Some "1 0 0") []]].

Definition ex_sco_template : string :=
  "<sceneobject>{preview}{original_usercolors}<name>{material_name}</name></sceneobject>".

(** A file system: a scene-object template, a text ["abc"], the two
    material templates, scene objects whose preview is [preview], and
    material files, with nothing at [missing.xml]; [[sco]latin1.xml] is
    not text in the locale's encoding and [[mat]broken.xml] is not
    well-formed XML; every copy and write succeeds; every directory holds
    two scene objects and three materials; names are capitalized as ASCII
    text. *)
Definition ex_world (preview : string) : world := {|
  w_read := fun p => if String.eqb (name p) "[sco]a.xml" then Some ex_sco_template
                     else if String.eqb (name p) "abc.txt" then Some "abc" else None;
  w_read_failure := fun p => if String.eqb (name p) "[sco]latin1.xml" then ReadDecodeError
                             else ReadOSError;
  w_parse := fun p => if String.eqb (name p) "[mat]a.xml" then Some ex_mat_tpl
                      else if String.eqb (name p) "[mat]bare.xml" then Some ex_mat_tpl_bare
                      else if String.eqb (name p) "missing.xml" then None
                      else if String.eqb (name p) "[mat]broken.xml" then None
                      else if ends_with ".nl2sco" (name p) then Some (ex_sco_doc preview)
                      else Some ex_mat_doc;
  w_parse_failure := fun p => if String.eqb (name p) "[mat]broken.xml" then ParseMalformed
                              else ParseOSError;
  w_copy := fun _ _ => true;
  w_list := fun _ => ["b.nl2sco"; "a.nl2sco"; "red.nl2mat"; "green.nl2mat"; "blue.nl2mat"];
  w_write := fun _ => true;
  w_capitalize := ascii_capitalize |}.

(** A scene object whose user colors have a namespaced attribute, an
    attribute value to escape, a tail, and a child in the XHTML namespace. *)
Definition ex_color_doc : elem :=
  Elem "root" [] None None
    [Elem "sceneobject" [] None None
       [Elem "preview" [] (Some "img/p.jpg") None [];
        Elem "usercolor" [("{http://example.com/nl2}space", "rgb"); ("mode", "a<b")]
          (Some "1 0 0") (Some " ") [];
        Elem "usercolor" [] None None
          [Elem "{http://www.w3.org/1999/xhtml}i" [] (Some "x") None []]]].

(** [ex_world], with [ex_color_doc] as every scene object. *)
Definition ex_color_world : world :=
  let w := ex_world "img/p.jpg" in {|
  w_read := w_read w;
  w_read_failure := w_read_failure w;
  w_parse := fun p => if ends_with ".nl2sco" (name p) then Some ex_color_doc else w_parse w p;
  w_parse_failure := w_parse_failure w;
  w_copy := w_copy w;
  w_list := w_list w;
  w_write := w_write w;
  w_capitalize := w_capitalize w |}.

Definition ex_empty : state := St [] [] [].

(** A state holding the element [e] at address [ex_addr_of e]. *)
Definition ex_state_of (e : elem) : state := St (fst (alloc [] e)) [] [].
Definition ex_addr_of (e : elem) : nat := snd (alloc [] e).

Definition ex_mat_template : path := parse_path "/exe/templates/[mat]a.xml".
Definition ex_sco_template_file : path := parse_path "/exe/templates/[sco]a.xml".




(** Two grafts of the same material. *)
Definition ex_graft1 : outcome nat * state :=
  with_tc_info_from (ex_world "") 50 ex_mat_template (ex_addr_of ex_mat_doc)
    (ex_state_of ex_mat_doc).

Definition ex_graft2 : outcome nat * state :=
  with_tc_info_from (ex_world "") 50 (parse_path "/exe/templates/[mat]bare.xml")
    (ex_addr_of ex_mat_doc) (snd ex_graft1).

Definition ex_result_addr {A} (r : outcome A * state) (dflt : A) : A :=
  match fst r with Ok a => a | Raise _ => dflt end.

(** The replacement map of a group whose scene object has the preview
    ["img/preview.jpg"], previews going to [/out/previews], scene objects
    to [/out]. *)
Definition ex_preview_run : outcome dict * state :=
  get_sco_replacements (ex_world "img/preview.jpg") 50 (Some (parse_path "/in/g/a.nl2sco"))
    (parse_path "/out/previews") (parse_path "/out") ex_empty.

(** A directory with two scene objects and three materials. *)
Definition ex_dir_world : world := ex_world "img/p.jpg".

Definition ex_dir_group : outcome run_group * state :=
  from_path_content ex_dir_world (parse_path "/in/g") ex_empty.

Definition ex_dir_grp : run_group := ex_result_addr ex_dir_group (RunGroup None []).

Definition ex_dir_run : outcome unit * state :=
  process_group_files ex_dir_world 50 (nl2mat_files ex_dir_grp) [ex_mat_template]
    (parse_path "/out/mat") (nl2sco_file ex_dir_grp) [ex_sco_template_file]
    (parse_path "/out") (parse_path "/out/previews") (snd ex_dir_group).

(** A run whose second group has a scene object whose preview lies
    outside the scene-object directory. *)
Definition ex_preview_outside : run_configuration :=
  RunConfiguration
    [RunGroup None [parse_path "/in/h/blue.nl2mat"];
     RunGroup (Some (parse_path "/in/g/a.nl2sco")) [parse_path "/in/g/red.nl2mat"]]
    "mat" "sco" "previews".

(** Command-line inputs: [/in/g] is the only directory, and every path
    exists. *)
Definition ex_is_dir (p : path) : option bool := Some (String.eqb (as_posix p) "/in/g").
Definition ex_exists (p : path) : option bool := Some true.

(** [/in/locked] cannot be examined: [is_dir] raises on it. *)
Definition ex_is_dir_locked (p : path) : option bool :=
  if String.eqb (as_posix p) "/in/locked" then None else ex_is_dir p.
Definition ex_args : list string := ["/in/g"; "/in/a.nl2mat"; "/in/notes.txt"].
Definition ex_exe : path := parse_path "/exe".

(** A scene object whose preview element has no text, and a material
    whose texture map has no text. *)
Definition ex_sco_no_preview_text : elem :=
  el "root" None [el "sceneobject" None [el "preview" None []]].

Definition ex_mat_empty_map : elem :=
  el "root" None [el "material" None [el "renderpass" None
    [el "texunit" None [el "map" None []]]]].

Definition ex_world_no_text : world :=
  {| w_read := w_read (ex_world "");
     w_read_failure := w_read_failure (ex_world "");
     w_parse := fun p => if ends_with ".nl2sco" (name p) then Some ex_sco_no_preview_text
                         else if ends_with ".nl2mat" (name p) then Some ex_mat_empty_map
                         else w_parse (ex_world "") p;
     w_parse_failure := w_parse_failure (ex_world "");
     w_copy := fun _ _ => true;
     w_list := w_list (ex_world "");
     w_write := fun _ => true;
     w_capitalize := ascii_capitalize |}.

(** A template directory with one template of each kind, a file named
    only [[mat].xml] and a text file. *)
Definition ex_template_world : world :=
  {| w_read := w_read (ex_world "");
     w_read_failure := w_read_failure (ex_world "");
     w_parse := w_parse (ex_world "");
     w_parse_failure := w_parse_failure (ex_world "");
     w_copy := fun _ _ => true;
     w_list := fun _ => ["[mat]a.xml"; "[sco]a.xml"; "[mat].xml"; "notes.txt"];
     w_write := fun _ => true;
     w_capitalize := ascii_capitalize |}.

(** One text file, the same at every path. *)
Definition ex_text_world : world :=
  {| w_read := fun _ => Some "<p>{preview}</p>{unknown}<n>{material_name}</n>";
     w_read_failure := fun _ => ReadOSError;
     w_parse := fun _ => None;
     w_parse_failure := fun _ => ParseOSError;
     w_copy := fun _ _ => true;
     w_list := fun _ => [];
     w_write := fun _ => true;
     w_capitalize := ascii_capitalize |}.

Ltac hyp_by_computation :=
  first [ vm_compute; reflexivity
        | intros ?Hc; vm_compute in Hc; discriminate Hc ].

(** * The claims *)

(** C1: graft additivity.  When the material [tm] can be copied and the
    template [T] has a first texture unit [u], [with_tc_info_from] returns a
    document that reads as [tm] with the children of [u] appended to the
    children of every texture unit; each texture unit of the result keeps
    its tag and text, its children are its original children followed by
    those of [u], and its child count is the original count plus the child
    count of [u]. *)
Theorem with_tc_info_from_graft_additive w lim tf m s tm T u :
  read lim (heap s) m = Some tm -> w_parse w tf = Some T ->
  find_v T texunit_path = Some u ->
  exists r s', with_tc_info_from w lim tf m s = (Ok r, s') /\
    reads (heap s') r (graft_at texunit_path (ekids u) tm) /\
    Forall2 (fun x y => etag y = etag x /\ etext y = etext x /\
                        ekids y = ekids x ++ ekids u /\
                        length (ekids y) = length (ekids x) + length (ekids u))
      (findall_v tm texunit_path)
      (findall_v (graft_at texunit_path (ekids u) tm) texunit_path).
Proof.
  intros Hm HT Hu.
  destruct (with_tc_info_from_run w lim tf m s tm T Hm HT) as (r & h3 & Hrun & _ & Hr).
  { intros Hn. congruence. }
  unfold frag_of in Hr. rewrite Hu in Hr.
  exists r, (St h3 (logs s) (files s)). split; [exact Hrun|]. split; [exact Hr|].
  rewrite findall_v_graft_at. apply forall2_append_kids.
Qed.

Lemma with_tc_info_from_graft_additive_witness :
  exists r s', ex_graft1 = (Ok r, s') /\
    reads (heap s') r (graft_at texunit_path [el "tc" (Some "1") []; el "tc" (Some "2") []]
                          ex_mat_doc) /\
    Forall2 (fun x y => etag y = etag x /\ etext y = etext x /\
                        ekids y = ekids x ++ [el "tc" (Some "1") []; el "tc" (Some "2") []] /\
                        length (ekids y) = length (ekids x) + 2)
      (findall_v ex_mat_doc texunit_path)
      (findall_v (graft_at texunit_path [el "tc" (Some "1") []; el "tc" (Some "2") []]
                   ex_mat_doc) texunit_path).
Proof.
  apply (with_tc_info_from_graft_additive (ex_world "") 50 ex_mat_template
           (ex_addr_of ex_mat_doc) (ex_state_of ex_mat_doc) ex_mat_doc ex_mat_tpl
           (el "texunit" None [el "tc" (Some "1") []; el "tc" (Some "2") []]));
    vm_compute; reflexivity.
Defined.

(** C2: non-mutation.  After one graft of [m] returns, every node that
    existed before is unchanged, so [m] still reads as before; a second
    graft of [m] with another template returns [m]'s original document
    grafted with the second template's fragment only. *)
Theorem with_tc_info_from_input_unchanged w lim tf1 tf2 m s r1 s1 r2 s2 :
  with_tc_info_from w lim tf1 m s = (Ok r1, s1) ->
  with_tc_info_from w lim tf2 m s1 = (Ok r2, s2) ->
  (forall i, i < length (heap s) -> heap s1 !! i = heap s !! i) /\
  read lim (heap s1) m = read lim (heap s) m /\
  exists tm T2, read lim (heap s) m = Some tm /\ w_parse w tf2 = Some T2 /\
    reads (heap s2) r2 (graft_at texunit_path (frag_of T2) tm).
Proof.
  intros H1 H2.
  destruct (with_tc_info_from_ok_inv _ _ _ _ _ _ _ H1) as (tm & T1 & Hm & HT1 & HN1).
  destruct (with_tc_info_from_run w lim tf1 m s tm T1 Hm HT1 HN1)
    as (r & h3 & Hrun & Hpre & _).
  rewrite Hrun in H1. injection H1 as <- <-. cbn [heap].
  assert (Hm1 : read lim h3 m = Some tm) by (eapply read_prefix; [exact Hm|exact Hpre]).
  split; [exact Hpre|]. split; [by rewrite Hm1, Hm|].
  destruct (with_tc_info_from_ok_inv _ _ _ _ _ _ _ H2) as (tm' & T2 & Hm' & HT2 & HN2).
  cbn [heap] in Hm'. rewrite Hm1 in Hm'. injection Hm' as <-.
  destruct (with_tc_info_from_run w lim tf2 m (St h3 (logs s) (files s)) tm T2 Hm1 HT2 HN2)
    as (r' & h4 & Hrun2 & _ & Hr2).
  rewrite Hrun2 in H2. injection H2 as <- <-.
  exists tm, T2. done.
Qed.

Lemma with_tc_info_from_input_unchanged_witness :
  read 50 (heap (snd ex_graft1)) (ex_addr_of ex_mat_doc) = Some ex_mat_doc /\
  reads (heap (snd (with_tc_info_from (ex_world "") 50 ex_mat_template
                      (ex_addr_of ex_mat_doc) (snd ex_graft1))))
        (ex_result_addr (with_tc_info_from (ex_world "") 50 ex_mat_template
                           (ex_addr_of ex_mat_doc) (snd ex_graft1)) 0)
        (graft_at texunit_path (frag_of ex_mat_tpl) ex_mat_doc).
Proof.
  destruct (with_tc_info_from_input_unchanged (ex_world "") 50 ex_mat_template ex_mat_template
              (ex_addr_of ex_mat_doc) (ex_state_of ex_mat_doc)
              (ex_result_addr ex_graft1 0) (snd ex_graft1)
              (ex_result_addr (with_tc_info_from (ex_world "") 50 ex_mat_template
                                 (ex_addr_of ex_mat_doc) (snd ex_graft1)) 0)
              (snd (with_tc_info_from (ex_world "") 50 ex_mat_template
                      (ex_addr_of ex_mat_doc) (snd ex_graft1))))
    as (_ & Hread & tm & T2 & Hm & HT2 & Hr).
  - vm_compute. reflexivity.
  - vm_compute. reflexivity.
  - assert (Htm : tm = ex_mat_doc).
    { vm_compute in Hm. injection Hm as <-. reflexivity. }
    assert (HT : T2 = ex_mat_tpl).
    { vm_compute in HT2. injection HT2 as <-. reflexivity. }
    subst tm T2. split; [|exact Hr]. rewrite Hread. vm_compute. reflexivity.
Defined.




(** C4: with no scene object the replacement map is the four recognised
    tokens mapped to the empty string, returned without effects; and when
    [process_group_files] runs a group with no scene object, the scene
    objects it makes for each material [m], in order, are those of the
    templates under the map that sends [{preview}],
    [{original_usercolors}] and [{scale_settings}] to the empty string and
    [{material_name}] to [m]'s name. *)
Theorem sco_replacements_defaults w lim pd sd s :
  get_sco_replacements w lim None pd sd s = (Ok sco_defaults, s) /\
  forall mats mtpls mdst stpls s',
    process_group_files w lim mats mtpls mdst None stpls sd pd s = (Ok tt, s') ->
    sco_outputs (files s') = sco_outputs (files s) ++
      concat (map (fun m => expected_scos w stpls
                   [("{preview}", ""); ("{original_usercolors}", ""); ("{scale_settings}", "");
                    ("{material_name}", stem m)] (stem m) sd) mats).
Proof.
  assert (Hd : get_sco_replacements w lim None pd sd s = (Ok sco_defaults, s)) by reflexivity.
  split; [exact Hd|]. intros mats mtpls mdst stpls s' H.
  unfold process_group_files in H. rewrite (bind_ok _ _ _ _ _ Hd) in H.
  rewrite (process_materials_ok _ _ _ _ _ _ _ _ _ _ H). reflexivity.
Qed.

Lemma sco_replacements_defaults_witness :
  exists s', process_group_files (ex_world "") 50 [parse_path "/in/Red.nl2mat"] [ex_mat_template]
               (parse_path "/out/mat") None [ex_sco_template_file] (parse_path "/out")
               (parse_path "/out/previews") ex_empty = (Ok tt, s') /\
    sco_outputs (files s') =
      expected_scos (ex_world "") [ex_sco_template_file]
        [("{preview}", ""); ("{original_usercolors}", ""); ("{scale_settings}", "");
         ("{material_name}", "Red")] "Red" (parse_path "/out") ++ [].
Proof.
  destruct (process_group_files (ex_world "") 50 [parse_path "/in/Red.nl2mat"] [ex_mat_template]
              (parse_path "/out/mat") None [ex_sco_template_file] (parse_path "/out")
              (parse_path "/out/previews") ex_empty) as [[[]|e] s'] eqn:H.
  - exists s'. split; [reflexivity|].
    exact (proj2 (sco_replacements_defaults (ex_world "") 50 (parse_path "/out/previews")
                    (parse_path "/out") ex_empty) _ _ _ _ _ H).
  - vm_compute in H. discriminate H.
Defined.

(** C5: when the replaced name is a valid file name and [sfx] a valid
    suffix, [transform_to_dst_file] replaces the token in the template's
    name (not its directory) by [str.replace], sets the suffix, and puts the
    result directly in [dst]; with no occurrence of the token the name is
    unchanged. *)
Theorem transform_to_dst_file_spec tf tok rep sfx dst :
  name tf <> "" ->
  py_replace (name tf) tok rep <> "" ->
  has_slash (py_replace (name tf) tok rep) = false ->
  py_replace (name tf) tok rep <> "." ->
  has_slash sfx = false -> String.prefix "." sfx = true -> sfx <> "." ->
  transform_to_dst_file tf tok rep sfx dst =
    Ok (Path (root dst)
          (comps dst ++ [String.append (name_stem (py_replace (name tf) tok rep)) sfx])) /\
  (occurs tok (name tf) = false -> py_replace (name tf) tok rep = name tf).
Proof.
  intros. split; [by apply transform_to_dst_file_ok|]. apply py_replace_absent.
Qed.

Lemma transform_to_dst_file_spec_witness :
  transform_to_dst_file (parse_path "templates/base[mat]tail.xml") "[mat]" "[Red]" ".nl2mat"
    (parse_path "dest") = Ok (parse_path "dest/base[Red]tail.nl2mat") /\
  as_posix (parse_path "dest/base[Red]tail.nl2mat") = "dest/base[Red]tail.nl2mat".
Proof.
  split; [|vm_compute; reflexivity].
  rewrite (proj1 (transform_to_dst_file_spec (parse_path "templates/base[mat]tail.xml")
                    "[mat]" "[Red]" ".nl2mat" (parse_path "dest")
                    ltac:(hyp_by_computation) ltac:(hyp_by_computation)
                    ltac:(hyp_by_computation) ltac:(hyp_by_computation)
                    ltac:(hyp_by_computation) ltac:(hyp_by_computation)
                    ltac:(hyp_by_computation))).
  vm_compute. reflexivity.
Defined.

(** C6 (counterexample): with previews going to [/previews], outside the
    scene-object directory [/out], [relative_to] raises [ValueError] and no
    preview token is produced. *)
Lemma sco_preview_outside_raises :
  fst (get_sco_replacements (ex_world "img/preview.jpg") 50 (Some (parse_path "/in/g/a.nl2sco"))
         (parse_path "/previews") (parse_path "/out") ex_empty) = Raise ValueError.
Proof. vm_compute. reflexivity. Qed.

(** C6 (amended): when the scene object has a preview with text [t], the
    outcome depends on [preview_dst / t] alone: when it lies inside
    [sco_dst], a returned replacement map maps [{preview}] to the wrapper
    tag around the POSIX form of [preview_dst / t] relative to [sco_dst];
    when it does not, [relative_to] raises [ValueError]. *)
Theorem sco_preview_token_relative w lim f pd sd s S g ats t tl ks :
  w_parse w f = Some S ->
  find_v S preview_path = Some (Elem g ats (Some t) tl ks) ->
  (is_relative_to (div_str pd t) sd = true -> forall d s',
     get_sco_replacements w lim (Some f) pd sd s = (Ok d, s') ->
     dict_get d "{preview}" =
       Some (String.append "<preview>"
               (String.append (as_posix (Path "" (skipn (length (comps sd))
                                                        (comps (div_str pd t)))))
                  "</preview>"))) /\
  (is_relative_to (div_str pd t) sd = false ->
     fst (get_sco_replacements w lim (Some f) pd sd s) = Raise ValueError).
Proof.
  intros HS Hf.
  pose proof (get_sco_replacements_preview w lim f pd sd s S g ats t tl ks HS Hf) as Hp.
  split.
  - intros Hrel d s' Hrun. rewrite (relative_to_ok _ _ Hrel) in Hp.
    destruct Hp as [Hp|[[Hp _]|(d' & s'' & Hrun' & Hd)]].
    + rewrite Hrun in Hp. discriminate.
    + rewrite Hrun in Hp. discriminate.
    + rewrite Hrun in Hrun'. injection Hrun' as <- <-. exact Hd.
  - intros Hrel. by rewrite (relative_to_raise _ _ Hrel) in Hp.
Qed.

Lemma sco_preview_token_relative_witness :
  dict_get (ex_result_addr ex_preview_run []) "{preview}" =
    Some "<preview>previews/img/preview.jpg</preview>".
Proof.
  rewrite (proj1 (sco_preview_token_relative (ex_world "img/preview.jpg") 50
             (parse_path "/in/g/a.nl2sco") (parse_path "/out/previews") (parse_path "/out")
             ex_empty (ex_sco_doc "img/preview.jpg") "preview" [] "img/preview.jpg" None []
             ltac:(vm_compute; reflexivity) ltac:(vm_compute; reflexivity))
             ltac:(vm_compute; reflexivity)
             (ex_result_addr ex_preview_run []) (snd ex_preview_run));
    vm_compute; reflexivity.
Defined.

(** C7 (counterexample): the tokens ["ab"] and ["bc"] are not substrings of
    each other nor of the values ["1"] and ["2"], yet on the text ["abc"]
    their order decides the result. *)
Lemma with_applied_placeholders_overlapping_tokens :
  occurs "ab" "bc" = false /\ occurs "bc" "ab" = false /\
  occurs "ab" "1" = false /\ occurs "ab" "2" = false /\
  occurs "bc" "1" = false /\ occurs "bc" "2" = false /\
  with_applied_placeholders (ex_world "") (parse_path "/t/abc.txt")
    [("ab", "1"); ("bc", "2")] ex_empty = (Ok "1c", ex_empty) /\
  with_applied_placeholders (ex_world "") (parse_path "/t/abc.txt")
    [("bc", "2"); ("ab", "1")] ex_empty = (Ok "a2", ex_empty).
Proof. repeat split; vm_compute; reflexivity. Qed.

(** C7 (amended): for a text made of literals with no ['{'] and of tokens
    ['{'...] each either a key of the map or neither a prefix of a key nor
    having one as a prefix, and a map of distinct ['{'...] keys whose values
    have no ['{'], substitution replaces each key by its value and leaves
    every other token as it is, and any reordering of the map gives the
    same text. *)
Theorem with_applied_placeholders_order_free w tf segs d1 d2 s :
  w_read w tf = Some (render segs) ->
  NoDup (map fst d1) -> d1 ≡ₚ d2 ->
  forallb entry_ok d1 = true -> forallb (segment_ok d1) segs = true ->
  with_applied_placeholders w tf d1 s = (Ok (render (map (resolve d1) segs)), s) /\
  with_applied_placeholders w tf d2 s = (Ok (render (map (resolve d1) segs)), s).
Proof.
  intros Hr Hnd Hp Hd Hs. split.
  - by apply with_applied_placeholders_segments.
  - by apply (with_applied_placeholders_segments w tf segs d1 d2 s).
Qed.

Lemma with_applied_placeholders_order_free_witness :
  with_applied_placeholders
    ex_text_world
    (parse_path "/t/[sco]a.xml")
    [("{material_name}", "Red"); ("{preview}", "<preview>x.jpg</preview>")] ex_empty =
  (Ok "<p><preview>x.jpg</preview></p>{unknown}<n>Red</n>", ex_empty).
Proof.
  rewrite (proj2 (with_applied_placeholders_order_free
    ex_text_world
    (parse_path "/t/[sco]a.xml")
    [Lit "<p>"; Tok "{preview}"; Lit "</p>"; Tok "{unknown}"; Lit "<n>";
     Tok "{material_name}"; Lit "</n>"]
    [("{preview}", "<preview>x.jpg</preview>"); ("{material_name}", "Red")]
    [("{material_name}", "Red"); ("{preview}", "<preview>x.jpg</preview>")] ex_empty
    ltac:(vm_compute; reflexivity)
    ltac:(simpl; apply NoDup_cons_2; [|apply NoDup_singleton]; rewrite elem_of_cons;
          intros [Hc|Hc]; [discriminate Hc|by apply not_elem_of_nil in Hc])
    ltac:(apply Permutation_swap)
    ltac:(vm_compute; reflexivity) ltac:(vm_compute; reflexivity))).
  vm_compute. reflexivity.
Defined.

(** C8 (counterexample): grafting a material that has a texture unit with a
    template that has none raises [TypeError] (iterating over [None]). *)
Lemma with_tc_info_from_bare_template_raises : fst ex_graft2 = Raise TypeError.
Proof. vm_compute. reflexivity. Qed.

(** C8 (amended): when the template has no texture unit at the fixed path,
    [with_tc_info_from] raises [TypeError] if the material has a texture
    unit, and otherwise returns an unchanged copy of the material. *)
Theorem with_tc_info_from_missing_texunit w lim tf m s tm T :
  read lim (heap s) m = Some tm -> w_parse w tf = Some T ->
  find_v T texunit_path = None ->
  (findall_v tm texunit_path <> [] -> fst (with_tc_info_from w lim tf m s) = Raise TypeError) /\
  (findall_v tm texunit_path = [] ->
   exists r s', with_tc_info_from w lim tf m s = (Ok r, s') /\ reads (heap s') r tm).
Proof.
  intros Hm HT Hf. split.
  - by apply (with_tc_info_from_raise w lim tf m s tm T).
  - intros Hn. destruct (with_tc_info_from_run w lim tf m s tm T Hm HT (fun _ => Hn))
      as (r & h3 & Hrun & _ & Hr).
    unfold frag_of in Hr. rewrite Hf, graft_at_nil in Hr. eauto.
Qed.

Lemma with_tc_info_from_missing_texunit_witness :
  exists r s', with_tc_info_from (ex_world "") 50 (parse_path "/exe/templates/[mat]bare.xml")
                 (ex_addr_of ex_mat_plain) (ex_state_of ex_mat_plain) = (Ok r, s') /\
               reads (heap s') r ex_mat_plain.
Proof.
  apply (with_tc_info_from_missing_texunit (ex_world "") 50
           (parse_path "/exe/templates/[mat]bare.xml") (ex_addr_of ex_mat_plain)
           (ex_state_of ex_mat_plain) ex_mat_plain ex_mat_tpl_bare);
    vm_compute; reflexivity.
Defined.

(** C9: [RunGroup.from_path_content] keeps the first [.nl2sco] file of the
    directory and the [.nl2mat] files, and logs one warning when there are
    several [.nl2sco] files; when [process_group_files] returns for that
    group, the replacement map [base] is computed once, and the scene-object
    files written are, material by material, those of [create_nl2scos] with
    [base] where only [{material_name}] is set to the material's stem. *)
Theorem group_replacements_shared w lim p s grp s1 mtpls mdst stpls sd pd s2 :
  from_path_content w p s = (Ok grp, s1) ->
  process_group_files w lim (nl2mat_files grp) mtpls mdst (nl2sco_file grp) stpls sd pd s1
    = (Ok tt, s2) ->
  nl2sco_file grp = head (glob w p ".nl2sco") /\
  nl2mat_files grp = glob w p ".nl2mat" /\
  logs s1 = logs s ++ (if Nat.ltb 1 (length (glob w p ".nl2sco"))
                       then [EMultipleSco p (default "" (name <$> head (glob w p ".nl2sco")))]
                       else []) /\
  exists base s0,
    get_sco_replacements w lim (nl2sco_file grp) pd sd s1 = (Ok base, s0) /\
    (forall k m, k <> "{material_name}" ->
       dict_get (dict_set base "{material_name}" (stem m)) k = dict_get base k) /\
    sco_outputs (files s2) = sco_outputs (files s1) ++
      concat (map (fun m => expected_scos w stpls (dict_set base "{material_name}" (stem m))
                                          (stem m) sd) (nl2mat_files grp)).
Proof.
  intros H1 H2.
  assert (Hgrp : grp = RunGroup (head (glob w p ".nl2sco")) (glob w p ".nl2mat") /\
                 s1 = St (heap s) (logs s ++ (if Nat.ltb 1 (length (glob w p ".nl2sco"))
                       then [EMultipleSco p (default "" (name <$> head (glob w p ".nl2sco")))]
                       else [])) (files s)).
  { unfold from_path_content, mbind, M_bind, log, mret, M_ret in H1.
    destruct (Nat.ltb 1 (length (glob w p ".nl2sco"))); injection H1 as <- <-; [done|].
    destruct s. by rewrite app_nil_r. }
  destruct Hgrp as [-> ->]. cbn [nl2sco_file nl2mat_files logs files] in *.
  split; [done|]. split; [done|]. split; [done|].
  apply bind_ok_inv in H2 as (base & s0 & Hg & Hp). exists base, s0.
  split; [exact Hg|]. split; [intros k m Hk; by apply dict_get_set_ne|].
  rewrite (process_materials_ok _ _ _ _ _ _ _ _ _ _ Hp).
  f_equal. apply (stable_get_sco_replacements _ _ _ _ _ _ _ _ Hg).
Qed.

Lemma group_replacements_shared_witness :
  exists base,
    get_sco_replacements ex_dir_world 50 (Some (parse_path "/in/g/b.nl2sco"))
      (parse_path "/out/previews") (parse_path "/out") (snd ex_dir_group) =
      (Ok base, snd (get_sco_replacements ex_dir_world 50 (Some (parse_path "/in/g/b.nl2sco"))
                       (parse_path "/out/previews") (parse_path "/out") (snd ex_dir_group))) /\
    sco_outputs (files (snd ex_dir_run)) =
      concat (map (fun m => expected_scos ex_dir_world [ex_sco_template_file]
                              (dict_set base "{material_name}" (stem m)) (stem m)
                              (parse_path "/out"))
                  [parse_path "/in/g/red.nl2mat"; parse_path "/in/g/green.nl2mat";
                   parse_path "/in/g/blue.nl2mat"]).
Proof.
  assert (H1 : from_path_content ex_dir_world (parse_path "/in/g") ex_empty =
               (Ok ex_dir_grp, snd ex_dir_group)) by (vm_compute; reflexivity).
  assert (H2 : process_group_files ex_dir_world 50 (nl2mat_files ex_dir_grp) [ex_mat_template]
                 (parse_path "/out/mat") (nl2sco_file ex_dir_grp) [ex_sco_template_file]
                 (parse_path "/out") (parse_path "/out/previews") (snd ex_dir_group) =
               (Ok tt, snd ex_dir_run)) by (vm_compute; reflexivity).
  destruct (group_replacements_shared ex_dir_world 50 (parse_path "/in/g") ex_empty ex_dir_grp
              (snd ex_dir_group) [ex_mat_template] (parse_path "/out/mat") [ex_sco_template_file]
              (parse_path "/out") (parse_path "/out/previews") (snd ex_dir_run) H1 H2)
    as (_ & _ & _ & base & s0 & Hg & _ & Hout).
  assert (E1 : nl2sco_file ex_dir_grp = Some (parse_path "/in/g/b.nl2sco"))
    by (vm_compute; reflexivity).
  assert (E2 : nl2mat_files ex_dir_grp =
               [parse_path "/in/g/red.nl2mat"; parse_path "/in/g/green.nl2mat";
                parse_path "/in/g/blue.nl2mat"]) by (vm_compute; reflexivity).
  assert (E3 : sco_outputs (files (snd ex_dir_group)) = []) by (vm_compute; reflexivity).
  rewrite E1 in Hg. rewrite E2, E3 in Hout. exists base. rewrite Hg.
  split; [reflexivity|exact Hout].
Defined.

(** C10 (counterexample): previews go to [/out], which is not inside the
    scene-object directory [/out/sco], yet the preview ["sco/p.jpg"] lands
    inside it and no error is raised. *)
Lemma sco_preview_outside_dir_no_error :
  is_relative_to (parse_path "/out") (parse_path "/out/sco") = false /\
  exists d s', get_sco_replacements (ex_world "sco/p.jpg") 50 (Some (parse_path "/in/g/a.nl2sco"))
                 (parse_path "/out") (parse_path "/out/sco") ex_empty = (Ok d, s').
Proof. split; [vm_compute; reflexivity|]. do 2 eexists. vm_compute. reflexivity. Qed.

(** C10 (amended): for a scene object with a preview [t] (and user colors
    whose names [ElementTree] can serialize, as those of any parsed
    document), the replacement map builder raises [ValueError] exactly when
    [preview_dst / t] is not inside [sco_dst] (same root, and the parts of
    [sco_dst] a prefix of its parts); the exception is not caught, so when
    the groups before the group of that scene object have run, the whole
    run ends with that [ValueError]. *)
Theorem sco_preview_value_error w lim f pd sd S g ats t tl ks :
  w_parse w f = Some S ->
  find_v S preview_path = Some (Elem g ats (Some t) tl ks) ->
  Forall (fun u => names_ok u = true) (findall_v S usercolor_path) ->
  (forall s, fst (get_sco_replacements w lim (Some f) pd sd s) = Raise ValueError <->
             is_relative_to (div_str pd t) sd = false) /\
  (forall exec_dir cfg gs1 grp gs2 mtpls stpls s0 s1,
     run_groups cfg = gs1 ++ grp :: gs2 -> nl2sco_file grp = Some f ->
     div exec_dir (parse_path (preview_dst cfg)) = pd ->
     div exec_dir (parse_path (nl2sco_dst cfg)) = sd ->
     run_for_config w lim exec_dir
       (RunConfiguration gs1 (nl2mat_dst cfg) (nl2sco_dst cfg) (preview_dst cfg)) mtpls stpls s0
       = (Ok tt, s1) ->
     is_relative_to (div_str pd t) sd = false ->
     exists s2, get_sco_replacements w lim (Some f) pd sd s1 = (Raise ValueError, s2) /\
       run_for_config w lim exec_dir cfg mtpls stpls s0 = (Raise ValueError, s2)).
Proof.
  intros HS Hf Hn.
  assert (Hiff : forall s, fst (get_sco_replacements w lim (Some f) pd sd s) = Raise ValueError <->
                 is_relative_to (div_str pd t) sd = false).
  { intros s.
    pose proof (get_sco_replacements_preview w lim f pd sd s S g ats t tl ks HS Hf) as Hp.
    destruct (is_relative_to (div_str pd t) sd) eqn:Hrel.
    - rewrite (relative_to_ok _ _ Hrel) in Hp. split; [|discriminate]. intros Hv.
      destruct Hp as [Hp|[[_ He]|(d & s' & Hrun & _)]].
      + rewrite Hp in Hv. discriminate.
      + apply Exists_exists in He as (v & Hv' & Hv'').
        rewrite Forall_forall in Hn. specialize (Hn v Hv'). congruence.
      + rewrite Hrun in Hv. discriminate.
    - rewrite (relative_to_raise _ _ Hrel) in Hp. done. }
  split; [exact Hiff|].
  intros exec_dir cfg gs1 grp gs2 mtpls stpls s0 s1 Hg Hgf Hpd Hsd H1 Hrel.
  apply (proj2 (Hiff s1)) in Hrel.
  destruct (get_sco_replacements w lim (Some f) pd sd s1) as [o s2] eqn:Hgs.
  cbn in Hrel. subst o. exists s2. split; [reflexivity|].
  apply (run_for_config_group_raise _ _ _ _ _ _ _ _ _ _ _ _ _ Hg H1).
  unfold process_group_files. rewrite Hgf, Hpd, Hsd. by apply bind_raise.
Qed.

Lemma sco_preview_value_error_witness :
  exists s2, run_for_config ex_dir_world 50 (parse_path "/exe") ex_preview_outside
               [ex_mat_template] [] ex_empty = (Raise ValueError, s2).
Proof.
  destruct (run_for_config ex_dir_world 50 (parse_path "/exe")
              (RunConfiguration [RunGroup None [parse_path "/in/h/blue.nl2mat"]]
                 "mat" "sco" "previews") [ex_mat_template] [] ex_empty)
    as [[[]|e] s1] eqn:H1; [|vm_compute in H1; discriminate H1].
  destruct (proj2 (sco_preview_value_error ex_dir_world 50 (parse_path "/in/g/a.nl2sco")
                     (parse_path "/exe/previews") (parse_path "/exe/sco")
                     (ex_sco_doc "img/p.jpg") "preview" [] "img/p.jpg" None []
                     ltac:(vm_compute; reflexivity) ltac:(vm_compute; reflexivity)
                     ltac:(repeat constructor))
              (parse_path "/exe") ex_preview_outside
              [RunGroup None [parse_path "/in/h/blue.nl2mat"]]
              (RunGroup (Some (parse_path "/in/g/a.nl2sco")) [parse_path "/in/g/red.nl2mat"])
              [] [ex_mat_template] [] ex_empty s1
              ltac:(vm_compute; reflexivity) ltac:(vm_compute; reflexivity)
              ltac:(vm_compute; reflexivity) ltac:(vm_compute; reflexivity)
              H1 ltac:(vm_compute; reflexivity))
    as (s2 & _ & H).
  exists s2. exact H.
Defined.

(** * Further properties of the script *)

(** X1: when the [is_dir] and [exists] checks on the arguments return,
    [RunGroup.groups_from_paths] returns and logs only the warnings of the
    directories; its first group has no scene object and holds the
    existing [.nl2mat] files named on the command line, in order; the other
    groups are those of the directory arguments that contain [.nl2mat]
    files, in order. *)
Theorem groups_from_paths_spec w is_dir pe args s :
  checks_return is_dir pe args ->
  exists gs,
    groups_from_paths w is_dir pe args s =
      (Ok (RunGroup None (ungrouped_arguments is_dir pe args) :: gs),
       St (heap s) (logs s ++ (dir_arguments is_dir args ≫= sco_warning w)) (files s)) /\
    gs = filter (fun g => has_data g = true) (map (dir_group w) (dir_arguments is_dir args)) /\
    Forall (fun g => nl2mat_files g <> []) gs.
Proof.
  intros Hc. eexists. split; [by apply groups_from_paths_run|]. split; [reflexivity|].
  apply Forall_forall. intros g Hg. apply list_elem_of_filter in Hg as [Hh _].
  unfold has_data in Hh. apply Nat.ltb_lt in Hh. intros Hn. rewrite Hn in Hh. simpl in Hh. lia.
Qed.

(** X2: [main] shows the tutorial exactly when no argument yields a
    material file: no argument is an existing [.nl2mat] file and no
    directory argument contains one. *)
Theorem groups_from_paths_show_tutorial w is_dir pe args s gs s' :
  groups_from_paths w is_dir pe args s = (Ok gs, s') ->
  (show_tutorial gs = true <-> Forall (no_material w is_dir pe) args).
Proof.
  intros H. pose proof (groups_from_paths_checks _ _ _ _ _ _ _ H) as Hc.
  rewrite (groups_from_paths_run _ _ _ _ _ Hc) in H. injection H as <- _.
  rewrite show_tutorial_cons, <- no_material_iff. done.
Qed.

(** X3: an output option given on the command line ([--nl2mat_out],
    [--nl2sco_out] or [--preview_out]) is stored as a one-element list, and
    [pathlib.Path] of it raises [TypeError]: when the log file opens, the
    checks on the arguments return and some argument yields a material
    file, [main] raises [TypeError] before any file is copied or written;
    the only file it has made is the log file, and it has logged only the
    warnings of the directories and the two lists of templates. *)
Theorem main_output_option_type_error w lim is_dir pe np date exec_dir args s :
  (cl_nl2mat_out args <> None \/ cl_nl2sco_out args <> None \/ cl_preview_out args <> None) ->
  checks_return is_dir pe (cl_files args) ->
  ~ Forall (no_material w is_dir pe) (cl_files args) ->
  main w lim is_dir pe np date true exec_dir args s =
    (Raise TypeError,
     St (heap s)
        (logs s ++ (dir_arguments is_dir (cl_files args) ≫= sco_warning w) ++
         [EFoundTemplates "material"
            (get_template_files w (div_str exec_dir TEMPLATE_DIR) TEMPLATE_MAT_IDENTIFIER);
          EFoundTemplates "sco"
            (get_template_files w (div_str exec_dir TEMPLATE_DIR) TEMPLATE_SCO_IDENTIFIER)])
        (files s ++ [LogFile (log_file date exec_dir)])).
Proof.
  intros Hopt Hc Hmat. unfold main.
  rewrite (bind_ok _ _ _ _ _ (setup_logging_run date exec_dir s)).
  rewrite (bind_ok _ _ _ _ _ (from_args_run w is_dir pe args _ Hc)).
  cbn [p_run_groups heap logs files].
  destruct (show_tutorial _) eqn:Ht.
  { exfalso. apply Hmat, no_material_iff. by apply show_tutorial_cons in Ht. }
  rewrite (bind_ok _ _ _ _ _ (log_run _ _)), (bind_ok _ _ _ _ _ (log_run _ _)).
  cbn [heap logs files]. rewrite <- !app_assoc. cbn [app].
  unfold run_for_parsed_config. cbn [p_nl2mat_dst p_nl2sco_dst p_preview_dst].
  destruct (cl_nl2mat_out args) as [o1|]; [reflexivity|].
  rewrite (bind_ok _ _ _ _ _ (eq_refl : path_arg exec_dir (nargs1 None NL2MAT_OUT_DEFAULT) _ = _)).
  destruct (cl_nl2sco_out args) as [o2|]; [reflexivity|].
  rewrite (bind_ok _ _ _ _ _ (eq_refl : path_arg exec_dir (nargs1 None NL2SCO_OUT_DEFAULT) _ = _)).
  destruct (cl_preview_out args) as [o3|]; [reflexivity|].
  exfalso. destruct Hopt as [H|[H|H]]; by apply H.
Qed.


(** X5: when the log file opens, the checks on the arguments return and
    no argument yields a material file, [main] makes the log file, logs
    that it shows the tutorial, writes the tutorial text to
    [exec_dir/How to Use Buildshapeify.txt] and writes no other file; it
    then raises [OSError] if the editor cannot be started. *)
Theorem main_tutorial_only w lim is_dir pe np date exec_dir args s :
  checks_return is_dir pe (cl_files args) ->
  Forall (no_material w is_dir pe) (cl_files args) ->
  w_write w (div_str exec_dir TUTORIAL_FILE) = true ->
  main w lim is_dir pe np date true exec_dir args s =
    (if np then Ok tt else Raise OSError,
     St (heap s)
        (logs s ++ (dir_arguments is_dir (cl_files args) ≫= sco_warning w) ++ [EShowingTutorial])
        (files s ++ [LogFile (log_file date exec_dir);
                     ScoFile (div_str exec_dir TUTORIAL_FILE) TUTORIAL_TEXT])).
Proof.
  intros Hc Hmat Hw. unfold main.
  rewrite (bind_ok _ _ _ _ _ (setup_logging_run date exec_dir s)).
  rewrite (bind_ok _ _ _ _ _ (from_args_run w is_dir pe args _ Hc)).
  cbn [p_run_groups heap logs files].
  apply no_material_iff in Hmat as [Hu Hg].
  assert (Ht : show_tutorial (RunGroup None (ungrouped_arguments is_dir pe (cl_files args)) ::
            filter (fun g => has_data g = true)
              (map (dir_group w) (dir_arguments is_dir (cl_files args)))) = true)
    by (by apply show_tutorial_cons).
  rewrite Ht, (bind_ok _ _ _ _ _ (log_run _ _)). cbn [heap logs files].
  unfold create_tutorial_file, write_content_to. rewrite Hw.
  unfold mbind, M_bind, mret, M_ret, emit, throw. cbn [heap logs files].
  rewrite <- !app_assoc. destruct np; reflexivity.
Qed.

(** X6: every replacement map [get_sco_replacements] returns has the four
    keys [{preview}], [{original_usercolors}], [{scale_settings}] and
    [{material_name}] in this order, and maps [{scale_settings}] and
    [{material_name}] to the empty string: the scale is never filled in. *)
Theorem sco_replacements_keys w lim f pd sd s d s' :
  get_sco_replacements w lim f pd sd s = (Ok d, s') ->
  map fst d = ["{preview}"; "{original_usercolors}"; "{scale_settings}"; "{material_name}"] /\
  dict_get d "{scale_settings}" = Some "" /\ dict_get d "{material_name}" = Some "".
Proof.
  set (P := fun d : dict =>
    map fst d = ["{preview}"; "{original_usercolors}"; "{scale_settings}"; "{material_name}"] /\
    dict_get d "{scale_settings}" = Some "" /\ dict_get d "{material_name}" = Some "").
  assert (Hset : forall d0 k v, k = "{preview}" \/ k = "{original_usercolors}" ->
                 P d0 -> P (dict_set d0 k v)).
  { intros d0 k v Hk (H1 & H2 & H3).
    assert (Hin : In k (map fst d0)) by (rewrite H1; destruct Hk as [->| ->]; cbn; tauto).
    destruct (dict_get_in _ _ Hin) as [v0 Hv0].
    split; [by rewrite (dict_set_keys _ _ _ _ Hv0)|].
    split; rewrite dict_get_set_ne; try done; destruct Hk as [->| ->]; discriminate. }
  assert (H0 : P sco_defaults) by done.
  change (get_sco_replacements w lim f pd sd s = (Ok d, s') -> P d).
  destruct f as [f|]; cbn [get_sco_replacements].
  2:{ intros [= <- _]. exact H0. }
  intros H. apply bind_ok_inv in H as (tr & s1 & _ & H).
  apply bind_ok_inv in H as (d1 & s2 & H2 & H).
  apply sco_preview_ok_inv in H2 as [_ Hd1].
  assert (HP1 : P d1).
  { destruct Hd1 as [->|[v ->]]; [exact H0|]. apply Hset; [by left|exact H0]. }
  rewrite (bind_ok _ _ s2 (heap s2) s2) in H by reflexivity.
  apply bind_ok_inv in H as (cs & s3 & _ & H).
  destruct cs as [|c cs]; injection H as <- _; [exact HP1|].
  apply Hset; [by right|exact HP1].
Qed.

(** X7: for a scene object whose document is [S], a returned replacement
    map maps [{original_usercolors}] to the [ElementTree.tostring]
    serialisations of the [./sceneobject/usercolor] elements of [S] (each
    with its tail, attributes escaped, namespaces declared on it), joined by
    newlines (the empty string when there are none). *)
Theorem sco_replacements_usercolors w lim f pd sd s S d s' :
  w_parse w f = Some S ->
  get_sco_replacements w lim (Some f) pd sd s = (Ok d, s') ->
  exists cs, mapM serialize (findall_v S usercolor_path) = Some cs /\
    dict_get d "{original_usercolors}" = Some (String.concat (String "010" EmptyString) cs).
Proof.
  intros HS H. cbn [get_sco_replacements] in H.
  apply bind_ok_inv in H as (tr & s1 & H1 & H).
  destruct (et_parse_run_eq w f s S tr s1 HS H1) as (_ & _ & Hin).
  apply bind_ok_inv in H as (d1 & s2 & H2 & H).
  apply sco_preview_ok_inv in H2 as [Hh2 Hd1].
  assert (Hu1 : dict_get d1 "{original_usercolors}" = Some "").
  { destruct Hd1 as [->|[v ->]]; [done|]. by rewrite dict_get_set_ne. }
  rewrite (bind_ok _ _ s2 (heap s2) s2) in H by reflexivity.
  apply bind_ok_inv in H as (cs & s3 & H3 & H).
  pose proof (findall_in_tree _ _ _ _ _ usercolor_path Hin) as Hsel.
  rewrite <- Hh2 in Hsel.
  destruct (map_M_tostring_values lim _ _ _ _ _ Hsel s2 cs s3 eq_refl H3) as [Hcs _].
  exists cs. split; [exact Hcs|].
  destruct cs as [|c cs]; injection H as <- _; [exact Hu1|].
  rewrite dict_get_set_eq. reflexivity.
Qed.

(** X8: a scene object whose [./sceneobject/preview] element is empty
    (no text) makes [get_sco_replacements] raise [TypeError]
    ([path / None]) before anything is copied or logged. *)
Theorem sco_replacements_empty_preview w lim f pd sd s S g ats tl ks :
  w_parse w f = Some S -> find_v S preview_path = Some (Elem g ats None tl ks) ->
  exists s', get_sco_replacements w lim (Some f) pd sd s = (Raise TypeError, s') /\
    logs s' = logs s /\ files s' = files s.
Proof.
  intros HS Hf. destruct (et_parse_in_tree w f s S HS) as (h2 & tr & Hp & Hin).
  destruct (find_in_tree _ _ _ _ _ preview_path Hin)
    as [[_ Hn] | (u & uv & Hu & Huv & Hinu)]; [congruence|].
  rewrite Hf in Huv. injection Huv as <-.
  destruct (in_tree_node _ _ _ _ _ Hinu) as [xs Hx].
  exists (St h2 (logs s) (files s)). split; [|done].
  cbn [get_sco_replacements]. rewrite (bind_ok _ _ _ _ _ Hp). apply bind_raise.
  unfold sco_preview. rewrite (bind_ok _ _ _ h2 _) by reflexivity.
  unfold preview_path in Hu. rewrite Hu. cbn [mbind option_bind]. rewrite Hx. reflexivity.
Qed.

(** X9: a material whose document has a [./material/renderpass/texunit/map]
    element with no text makes [handle_materials] raise [TypeError] while
    copying the textures, before any material file is written. *)
Theorem handle_materials_empty_map w lim f tpls nm dst s D :
  w_parse w f = Some D -> (exists v, v ∈ findall_v D map_path /\ etext v = None) ->
  exists s', handle_materials w lim f tpls nm dst s = (Raise TypeError, s') /\
    files s' = files s.
Proof.
  intros HD Hv. destruct (et_parse_in_tree w f s D HD) as (h2 & m & Hp & Hin).
  pose proof (findall_in_tree _ _ _ _ _ map_path Hin) as Hsel.
  destruct (copy_textures w _ _ _ (parent f) dst _ _ Hsel (St h2 (logs s) (files s)) eq_refl)
    as [Hnone _].
  destruct (Hnone (mapM_etext_None _ Hv)) as [lg Hlg].
  exists (St h2 lg (files s)). split; [|done].
  unfold handle_materials. rewrite (bind_ok _ _ _ _ _ Hp).
  rewrite (bind_ok _ _ _ h2 (St h2 (logs s) (files s))) by reflexivity.
  by rewrite (bind_raise _ _ _ _ _ Hlg).
Qed.

(** X10: when [handle_materials] returns, the material document [D] of the
    file had text in every [map] element; the textures were copied from the
    material's directory to [dst_path] under the same relative names, in
    document order; and for every material template [T], in order, one file
    [dst_path/<template name with [mat] replaced by [name]>.nl2mat] was
    written, holding [D] with the children of [T]'s first texture unit
    appended to every texture unit. *)
Theorem handle_materials_outputs w lim f tpls nm dst s s' :
  handle_materials w lim f tpls nm dst s = (Ok tt, s') ->
  exists D ts, w_parse w f = Some D /\ mapM etext (findall_v D map_path) = Some ts /\
    files s' = files s ++ expected_mats w tpls D nm dst /\
    logs s' = logs s ++ copy_log w (texture_pairs (parent f) dst ts) ++
              expected_mat_logs w tpls nm dst.
Proof.
  intros H. unfold handle_materials in H.
  apply bind_ok_inv in H as (m & s1 & Hp & H).
  destruct (w_parse w f) as [D|] eqn:HD.
  2:{ rewrite (et_parse_fail w f s HD) in Hp. discriminate. }
  destruct (et_parse_run_eq w f s D m s1 HD Hp) as (Hl1 & Hf1 & Hin).
  rewrite (bind_ok _ _ s1 (heap s1) s1) in H by reflexivity.
  apply bind_ok_inv in H as ([] & s2 & Hc & H).
  pose proof (findall_in_tree _ _ _ _ _ map_path Hin) as Hsel.
  destruct (copy_textures w _ _ _ (parent f) dst _ _ Hsel s1 eq_refl) as [Hnone Hsome].
  destruct (mapM etext (findall_v D map_path)) as [ts|] eqn:Hts.
  2:{ destruct (Hnone eq_refl) as [lg Hlg]. rewrite Hlg in Hc. discriminate. }
  rewrite (Hsome ts eq_refl) in Hc. injection Hc as <-.
  assert (HD2 : reads (heap s1) m D) by exact (in_tree_reads _ _ _ _ _ Hin).
  pose proof (fun H0 => material_templates_loop w lim tpls nm dst m D _ _ H0 H) as Hloop.
  destruct (Hloop HD2) as [Hf Hl].
  exists D, ts. cbn [files logs] in Hf, Hl. rewrite Hf, Hl, Hf1, Hl1.
  split; [done|]. split; [done|]. split; [done|]. by rewrite app_assoc.
Qed.

(** X11: when [create_nl2scos] returns, it has written, for every template
    in order, one file [dst_path/<template name with [sco] replaced by the
    capitalised material name>.nl2sco] holding the template's text with the
    placeholders replaced, and nothing else. *)
Theorem create_nl2scos_outputs w tpls d nm dst s s' :
  create_nl2scos w tpls d nm dst s = (Ok tt, s') ->
  files s' = files s ++ map (fun pc => ScoFile pc.1 pc.2) (expected_scos w tpls d nm dst).
Proof.
  revert s. induction tpls as [|tpl tpls IH]; intros s H.
  - injection H as <-. unfold expected_scos. cbn. by rewrite app_nil_r.
  - unfold create_nl2scos in H. rewrite for_each_cons in H.
    apply bind_ok_inv in H as ([] & s1 & H1 & H2).
    apply create_nl2scos_step in H1 as (c & p & Hr & Ht & Hf).
    rewrite (IH _ H2), Hf. unfold expected_scos at 2.
    rewrite bind_cons, Hr, Ht. cbn. by rewrite <- app_assoc.
Qed.

(** X13: no file is taken both as a material template ([[mat*.xml]) and as
    a scene-object template ([[sco*.xml]). *)
Theorem template_kinds_disjoint w d p :
  p ∈ get_template_files w d TEMPLATE_MAT_IDENTIFIER ->
  p ∉ get_template_files w d TEMPLATE_SCO_IDENTIFIER.
Proof.
  unfold get_template_files. intros H1 H2.
  apply list_elem_of_fmap_1 in H1 as (f1 & -> & H1).
  apply list_elem_of_fmap_1 in H2 as (f2 & Heq & H2).
  apply list_elem_of_filter in H1 as [H1 _]. apply list_elem_of_filter in H2 as [H2 _].
  unfold template_name_matches in H1, H2.
  apply andb_prop in H1 as [H1 _]. apply andb_prop in H1 as [H1 _].
  apply andb_prop in H2 as [H2 _]. apply andb_prop in H2 as [H2 _].
  destruct (div_str_bracket d "mat" f1 eq_refl H1) as (r1 & rest1 & E1).
  destruct (div_str_bracket d "sco" f2 eq_refl H2) as (r2 & rest2 & E2).
  rewrite E1, E2 in Heq. injection Heq as Heq. apply app_inv_head in Heq.
  injection Heq as Heq. simpl in Heq. discriminate Heq.
Qed.

(** X12: the [is_dir] and [exists] checks are not guarded: when, after
    arguments whose checks return, the [is_dir] check of an argument
    raises, or it returns [False] and the [exists] check raises,
    [RunGroup.groups_from_paths] raises [OSError]. *)
Theorem groups_from_paths_check_raises w is_dir pe args1 f args2 s :
  checks_return is_dir pe args1 ->
  (is_dir (parse_path f) = None \/
   (is_dir (parse_path f) = Some false /\ pe (parse_path f) = None)) ->
  exists s', groups_from_paths w is_dir pe (args1 ++ f :: args2) s = (Raise OSError, s').
Proof.
  intros Hc Hf. unfold groups_from_paths.
  destruct (groups_loop_app w is_dir pe args1 (f :: args2) Hc [] [] s) as (U & G & s1 & Hl).
  exists s1. apply bind_raise. rewrite Hl. cbn [groups_loop].
  destruct Hf as [->|[-> ->]]; reflexivity.
Qed.

(** ** Instances of the further properties *)

Lemma groups_from_paths_spec_witness :
  checks_return ex_is_dir ex_exists ex_args /\
  exists gs,
    groups_from_paths ex_dir_world ex_is_dir ex_exists ex_args ex_empty =
      (Ok (RunGroup None (ungrouped_arguments ex_is_dir ex_exists ex_args) :: gs),
       St [] ([] ++ (dir_arguments ex_is_dir ex_args ≫= sco_warning ex_dir_world)) []) /\
    gs = filter (fun g => has_data g = true)
           (map (dir_group ex_dir_world) (dir_arguments ex_is_dir ex_args)) /\
    Forall (fun g => nl2mat_files g <> []) gs.
Proof.
  assert (Hc : checks_return ex_is_dir ex_exists ex_args)
    by (apply (bool_decide_unpack _); vm_compute; reflexivity).
  split; [exact Hc|].
  exact (groups_from_paths_spec ex_dir_world ex_is_dir ex_exists ex_args ex_empty Hc).
Defined.

Lemma groups_from_paths_show_tutorial_witness :
  exists gs s', groups_from_paths ex_dir_world ex_is_dir ex_exists ex_args ex_empty = (Ok gs, s') /\
    (show_tutorial gs = true <-> Forall (no_material ex_dir_world ex_is_dir ex_exists) ex_args).
Proof.
  destruct (groups_from_paths ex_dir_world ex_is_dir ex_exists ex_args ex_empty)
    as [[gs|e] s'] eqn:H.
  - exists gs, s'. split; [reflexivity|].
    exact (groups_from_paths_show_tutorial _ _ _ _ _ _ _ H).
  - vm_compute in H. discriminate H.
Defined.

Lemma main_output_option_type_error_witness :
  (Some "out" <> None \/ None <> @None string \/ None <> @None string) /\
  checks_return ex_is_dir ex_exists ex_args /\
  ~ Forall (no_material ex_dir_world ex_is_dir ex_exists) ex_args /\
  main ex_dir_world 50 ex_is_dir ex_exists true "2026-10-17_12-00-00" true ex_exe
    (CommandLine ex_args (Some "out") None None) ex_empty =
    (Raise TypeError,
     St [] ([] ++ (dir_arguments ex_is_dir ex_args ≫= sco_warning ex_dir_world) ++
            [EFoundTemplates "material"
               (get_template_files ex_dir_world (div_str ex_exe TEMPLATE_DIR) TEMPLATE_MAT_IDENTIFIER);
             EFoundTemplates "sco"
               (get_template_files ex_dir_world (div_str ex_exe TEMPLATE_DIR) TEMPLATE_SCO_IDENTIFIER)])
        ([] ++ [LogFile (log_file "2026-10-17_12-00-00" ex_exe)])).
Proof.
  assert (Hc : checks_return ex_is_dir ex_exists ex_args)
    by (apply (bool_decide_unpack _); vm_compute; reflexivity).
  assert (Hn : ~ Forall (no_material ex_dir_world ex_is_dir ex_exists) ex_args).
  { intros HF. apply Forall_inv in HF. vm_compute in HF. discriminate HF. }
  split; [left; discriminate|]. split; [exact Hc|]. split; [exact Hn|].
  exact (main_output_option_type_error ex_dir_world 50 ex_is_dir ex_exists true
           "2026-10-17_12-00-00" ex_exe (CommandLine ex_args (Some "out") None None) ex_empty
           (or_introl (fun H : Some "out" = None => match H with end)) Hc Hn).
Defined.

Lemma main_tutorial_only_witness :
  checks_return ex_is_dir ex_exists ["/in/notes.txt"] /\
  Forall (no_material ex_dir_world ex_is_dir ex_exists) ["/in/notes.txt"] /\
  w_write ex_dir_world (div_str ex_exe TUTORIAL_FILE) = true /\
  main ex_dir_world 50 ex_is_dir ex_exists false "2026-10-17_12-00-00" true ex_exe
    (CommandLine ["/in/notes.txt"] None None None) ex_empty =
    (Raise OSError,
     St [] ([] ++ (dir_arguments ex_is_dir ["/in/notes.txt"] ≫= sco_warning ex_dir_world) ++
            [EShowingTutorial])
        ([] ++ [LogFile (log_file "2026-10-17_12-00-00" ex_exe);
                ScoFile (div_str ex_exe TUTORIAL_FILE) TUTORIAL_TEXT])).
Proof.
  assert (Hc : checks_return ex_is_dir ex_exists ["/in/notes.txt"])
    by (apply (bool_decide_unpack _); vm_compute; reflexivity).
  assert (HF : Forall (no_material ex_dir_world ex_is_dir ex_exists) ["/in/notes.txt"]).
  { constructor; [|constructor]. vm_compute. right. discriminate. }
  split; [exact Hc|]. split; [exact HF|]. split; [reflexivity|].
  exact (main_tutorial_only ex_dir_world 50 ex_is_dir ex_exists false "2026-10-17_12-00-00"
           ex_exe (CommandLine ["/in/notes.txt"] None None None) ex_empty Hc HF eq_refl).
Defined.

Lemma groups_from_paths_check_raises_witness :
  checks_return ex_is_dir_locked ex_exists ex_args /\
  exists s', groups_from_paths ex_dir_world ex_is_dir_locked ex_exists
               (ex_args ++ ["/in/locked"] ++ ["/in/b.nl2mat"]) ex_empty = (Raise OSError, s').
Proof.
  assert (Hc : checks_return ex_is_dir_locked ex_exists ex_args)
    by (apply (bool_decide_unpack _); vm_compute; reflexivity).
  split; [exact Hc|].
  exact (groups_from_paths_check_raises ex_dir_world ex_is_dir_locked ex_exists ex_args
           "/in/locked" ["/in/b.nl2mat"] ex_empty Hc
           (or_introl (eq_refl : ex_is_dir_locked (parse_path "/in/locked") = None))).
Defined.

Lemma sco_replacements_keys_witness :
  exists d s', ex_preview_run = (Ok d, s') /\
    map fst d = ["{preview}"; "{original_usercolors}"; "{scale_settings}"; "{material_name}"] /\
    dict_get d "{scale_settings}" = Some "" /\ dict_get d "{material_name}" = Some "".
Proof.
  unfold ex_preview_run.
  destruct (get_sco_replacements (ex_world "img/preview.jpg") 50 (Some (parse_path "/in/g/a.nl2sco"))
              (parse_path "/out/previews") (parse_path "/out") ex_empty) as [[d|e] s'] eqn:H.
  - exists d, s'. split; [reflexivity|]. exact (sco_replacements_keys _ _ _ _ _ _ _ _ H).
  - vm_compute in H. discriminate H.
Defined.

Lemma sco_replacements_usercolors_witness :
  mapM serialize (findall_v ex_color_doc usercolor_path) =
    Some [String.concat "" ["<usercolor xmlns:ns0="; dquote; "http://example.com/nl2"; dquote;
                            " ns0:space="; dquote; "rgb"; dquote; " mode="; dquote; "a&lt;b"; dquote;
                            ">1 0 0</usercolor> "];
          String.concat "" ["<usercolor xmlns:html="; dquote; "http://www.w3.org/1999/xhtml"; dquote;
                            "><html:i>x</html:i></usercolor>"]] /\
  exists d s' cs,
    get_sco_replacements ex_color_world 50 (Some (parse_path "/in/g/a.nl2sco"))
      (parse_path "/out/previews") (parse_path "/out") ex_empty = (Ok d, s') /\
    mapM serialize (findall_v ex_color_doc usercolor_path) = Some cs /\
    dict_get d "{original_usercolors}" = Some (String.concat (String "010" EmptyString) cs).
Proof.
  split; [vm_compute; reflexivity|].
  destruct (get_sco_replacements ex_color_world 50 (Some (parse_path "/in/g/a.nl2sco"))
              (parse_path "/out/previews") (parse_path "/out") ex_empty) as [[d|e] s'] eqn:H.
  - exists d, s'.
    destruct (sco_replacements_usercolors ex_color_world 50 (parse_path "/in/g/a.nl2sco")
                (parse_path "/out/previews") (parse_path "/out") ex_empty ex_color_doc
                d s' eq_refl H) as (cs & Hcs & Hd).
    exists cs. split; [reflexivity|]. split; [exact Hcs|exact Hd].
  - vm_compute in H. discriminate H.
Defined.

Lemma sco_replacements_empty_preview_witness :
  w_parse ex_world_no_text (parse_path "/in/g/a.nl2sco") = Some ex_sco_no_preview_text /\
  find_v ex_sco_no_preview_text preview_path = Some (el "preview" None []) /\
  exists s', get_sco_replacements ex_world_no_text 50 (Some (parse_path "/in/g/a.nl2sco"))
               (parse_path "/out/previews") (parse_path "/out") ex_empty = (Raise TypeError, s') /\
    logs s' = [] /\ files s' = [].
Proof.
  split; [reflexivity|]. split; [reflexivity|].
  exact (sco_replacements_empty_preview ex_world_no_text 50 (parse_path "/in/g/a.nl2sco")
           (parse_path "/out/previews") (parse_path "/out") ex_empty ex_sco_no_preview_text
           "preview" [] None [] eq_refl eq_refl).
Defined.

Lemma handle_materials_empty_map_witness :
  w_parse ex_world_no_text (parse_path "/in/g/red.nl2mat") = Some ex_mat_empty_map /\
  (exists v, v ∈ findall_v ex_mat_empty_map map_path /\ etext v = None) /\
  exists s', handle_materials ex_world_no_text 50 (parse_path "/in/g/red.nl2mat") [ex_mat_template]
               "red" (parse_path "/out/mat") ex_empty = (Raise TypeError, s') /\ files s' = [].
Proof.
  assert (Hv : exists v, v ∈ findall_v ex_mat_empty_map map_path /\ etext v = None).
  { exists (el "map" None []). split; [vm_compute; constructor|reflexivity]. }
  split; [reflexivity|]. split; [exact Hv|].
  exact (handle_materials_empty_map ex_world_no_text 50 (parse_path "/in/g/red.nl2mat")
           [ex_mat_template] "red" (parse_path "/out/mat") ex_empty ex_mat_empty_map eq_refl Hv).
Defined.

Lemma handle_materials_outputs_witness :
  exists s', handle_materials (ex_world "") 50 (parse_path "/in/g/red.nl2mat") [ex_mat_template]
               "red" (parse_path "/out/mat") ex_empty = (Ok tt, s') /\
  exists D ts, w_parse (ex_world "") (parse_path "/in/g/red.nl2mat") = Some D /\
    mapM etext (findall_v D map_path) = Some ts /\
    files s' = expected_mats (ex_world "") [ex_mat_template] D "red" (parse_path "/out/mat") /\
    logs s' = copy_log (ex_world "") (texture_pairs (parse_path "/in/g") (parse_path "/out/mat") ts) ++
              expected_mat_logs (ex_world "") [ex_mat_template] "red" (parse_path "/out/mat").
Proof.
  destruct (handle_materials (ex_world "") 50 (parse_path "/in/g/red.nl2mat") [ex_mat_template]
              "red" (parse_path "/out/mat") ex_empty) as [[[]|e] s'] eqn:H.
  - exists s'. split; [reflexivity|].
    exact (handle_materials_outputs _ _ _ _ _ _ _ _ H).
  - vm_compute in H. discriminate H.
Defined.

Lemma create_nl2scos_outputs_witness :
  exists s', create_nl2scos (ex_world "") [ex_sco_template_file] sco_defaults "Red"
               (parse_path "/out") ex_empty = (Ok tt, s') /\
    files s' = map (fun pc => ScoFile pc.1 pc.2)
                 (expected_scos (ex_world "") [ex_sco_template_file] sco_defaults "Red"
                    (parse_path "/out")).
Proof.
  destruct (create_nl2scos (ex_world "") [ex_sco_template_file] sco_defaults "Red"
              (parse_path "/out") ex_empty) as [[[]|e] s'] eqn:H.
  - exists s'. split; [reflexivity|].
    exact (create_nl2scos_outputs _ _ _ _ _ _ _ H).
  - vm_compute in H. discriminate H.
Defined.

Lemma template_kinds_disjoint_witness :
  parse_path "/exe/templates/[mat]a.xml"
    ∈ get_template_files ex_template_world (parse_path "/exe/templates") TEMPLATE_MAT_IDENTIFIER /\
  parse_path "/exe/templates/[mat]a.xml"
    ∉ get_template_files ex_template_world (parse_path "/exe/templates") TEMPLATE_SCO_IDENTIFIER.
Proof.
  assert (H : parse_path "/exe/templates/[mat]a.xml"
    ∈ get_template_files ex_template_world (parse_path "/exe/templates") TEMPLATE_MAT_IDENTIFIER).
  { vm_compute. constructor. }
  split; [exact H|].
  exact (template_kinds_disjoint ex_template_world (parse_path "/exe/templates") _ H).
Defined.
